(** * Streaming narrative / game-state synchroniser of [src/index.tsx]

    A shallow embedding of the text-adventure front end: the JavaScript
    string primitives it relies on ([trim], [split], [match], [replace],
    [parseInt]), the two regular expressions it applies to the streamed
    reply, the module-level game state, and the turn handler that streams
    a reply into the page and finally calls [parseAndUpdateState]. *)

From Stdlib Require Import List NArith ZArith Bool Lia String Ascii.
Import ListNotations.

(* ================================================================== *)
(** ** JavaScript strings *)
(* ================================================================== *)

(** A JavaScript string is a sequence of UTF-16 code units. *)
Definition char := N.
Definition jsstring := list char.

(** An ASCII literal of the source, as code units. *)
Definition lit (s : string) : jsstring :=
  map N_of_ascii (list_ascii_of_string s).

(** ECMAScript [WhiteSpace] and [LineTerminator] code points: the
    characters [String.prototype.trim] and [parseInt] strip. *)
Definition is_white (c : char) : bool :=
  ((9 <=? c) && (c <=? 13) || (c =? 32) || (c =? 160) || (c =? 5760)
   || (8192 <=? c) && (c <=? 8202) || (c =? 8232) || (c =? 8233)
   || (c =? 8239) || (c =? 8287) || (c =? 12288) || (c =? 65279))%N.

(** [\d] without the unicode flag: the ten ASCII digits. *)
Definition is_digit (c : char) : bool := ((48 <=? c) && (c <=? 57))%N.

Fixpoint dropWhile (p : char -> bool) (s : jsstring) : jsstring :=
  match s with
  | [] => []
  | c :: s' => if p c then dropWhile p s' else s
  end.

Fixpoint takeWhile (p : char -> bool) (s : jsstring) : jsstring :=
  match s with
  | [] => []
  | c :: s' => if p c then c :: takeWhile p s' else []
  end.

Definition trimStart (s : jsstring) : jsstring := dropWhile is_white s.
Definition trimEnd (s : jsstring) : jsstring := rev (dropWhile is_white (rev s)).

(** [String.prototype.trim]. *)
Definition trim (s : jsstring) : jsstring := trimEnd (trimStart s).

(** [s.split(sep)] for a one-character separator; the empty string
    splits into one empty item, as in JavaScript. *)
Fixpoint split (sep : char) (s : jsstring) : list jsstring :=
  match s with
  | [] => [[]]
  | c :: s' =>
      if (c =? sep)%N then [] :: split sep s'
      else match split sep s' with
           | h :: t => (c :: h) :: t
           | [] => [[c]]
           end
  end.

(** [Boolean(str)]: a string is truthy exactly when it is not empty. *)
Definition truthy (s : jsstring) : bool :=
  match s with [] => false | _ :: _ => true end.

(** [l] is removed from the front of [s], when it is there. *)
Fixpoint strip_prefix (l s : jsstring) : option jsstring :=
  match l with
  | [] => Some s
  | c :: l' =>
      match s with
      | d :: s' => if (d =? c)%N then strip_prefix l' s' else None
      | [] => None
      end
  end.

(* ================================================================== *)
(** ** Backtracking regular expressions *)
(* ================================================================== *)

(** The fragment of ECMAScript patterns the source uses: literal
    characters, [\d], [.] under the [s] flag, sequencing, capturing
    groups, and the greedy and lazy star of a one-character atom.  The
    matcher is the continuation-passing backtracking matcher of the
    ECMAScript specification, restricted to that fragment. *)
Inductive cls : Type :=
| CChar (c : char)
| CDigit
| CAny.

Definition cls_match (p : cls) (c : char) : bool :=
  match p with
  | CChar d => (c =? d)%N
  | CDigit => is_digit c
  | CAny => true
  end.

Inductive regex : Type :=
| REmpty
| RChar (p : cls)
| RSeq (r1 r2 : regex)
| RStar (greedy : bool) (p : cls)
| RGroup (i : nat) (r : regex).

Definition captures := list (nat * jsstring).

Fixpoint capture (i : nat) (caps : captures) : option jsstring :=
  match caps with
  | [] => None
  | (j, v) :: caps' => if Nat.eqb i j then Some v else capture i caps'
  end.

Section Matcher.
Variable A : Type.

(** [p*] (greedy) tries the longest run first and gives characters
    back one at a time; [p*?] (lazy) tries the empty run first. *)
Fixpoint star (greedy : bool) (p : cls) (k : jsstring -> option A)
         (s : jsstring) : option A :=
  match s with
  | [] => k []
  | c :: s' =>
      if cls_match p c then
        if greedy then
          match star greedy p k s' with
          | Some x => Some x
          | None => k s
          end
        else
          match k s with
          | Some x => Some x
          | None => star greedy p k s'
          end
      else k s
  end.

Fixpoint rmatch (r : regex) (s : jsstring) (caps : captures)
         (k : jsstring -> captures -> option A) : option A :=
  match r with
  | REmpty => k s caps
  | RChar p =>
      match s with
      | c :: s' => if cls_match p c then k s' caps else None
      | [] => None
      end
  | RSeq r1 r2 => rmatch r1 s caps (fun s1 c1 => rmatch r2 s1 c1 k)
  | RStar g p => star g p (fun s' => k s' caps) s
  | RGroup i r1 =>
      rmatch r1 s caps
        (fun s' c' =>
           k s' ((i, firstn (List.length s - List.length s') s) :: c'))
  end.
End Matcher.

Arguments star {A} greedy p k s.
Arguments rmatch {A} r s caps k.

(** A literal string as a pattern. *)
Fixpoint rlit (l : jsstring) : regex :=
  match l with
  | [] => REmpty
  | c :: l' => RSeq (RChar (CChar c)) (rlit l')
  end.

(** [r+] for a one-character atom. *)
Definition rplus (p : cls) : regex := RSeq (RChar p) (RStar true p).

(** The match at the front of [s]: what is left of [s] after the match,
    and the captures. *)
Definition match_here (r : regex) (s : jsstring)
  : option (jsstring * captures) :=
  rmatch r s [] (fun s' c => Some (s', c)).

(** The leftmost match, searched from position [i] on: its index, the
    text left after it and its captures. *)
Fixpoint search (r : regex) (i : nat) (s : jsstring)
  : option (nat * jsstring * captures) :=
  match match_here r s with
  | Some (rest, caps) => Some (i, rest, caps)
  | None =>
      match s with
      | [] => None
      | _ :: s' => search r (S i) s'
      end
  end.

(** [s.match(r)] for a pattern without the [g] flag. *)
Definition regex_match (r : regex) (s : jsstring)
  : option (nat * jsstring * captures) :=
  search r 0 s.

(** [s.replace(r, '')] for a pattern without the [g] flag: the leftmost
    match is cut out. *)
Definition replace_empty (r : regex) (s : jsstring) : jsstring :=
  match regex_match r s with
  | Some (i, rest, _) => firstn i s ++ rest
  | None => s
  end.

(* ================================================================== *)
(** ** Numbers and [parseInt] *)
(* ================================================================== *)

(** The Number values that can arise here: the integer-valued finite
    doubles, the infinities, negative zero and NaN. *)
Inductive number : Type :=
| Fin (z : Z)
| NegZero
| PosInf
| NegInf
| NaN.

(** The Number value of a non-negative mathematical integer: the
    nearest double, ties to even, overflowing to +Infinity. *)
Definition to_double (n : Z) : number :=
  if (n <? 2 ^ 53)%Z then Fin n
  else
    let e := (Z.log2 n - 52)%Z in
    let q := Z.shiftr n e in
    let r := (n - Z.shiftl q e)%Z in
    let half := (2 ^ (e - 1))%Z in
    let q' := if ((half <? r) || ((r =? half) && Z.odd q))%Z
              then (q + 1)%Z else q in
    let v := Z.shiftl q' e in
    if (2 ^ 1024 <=? v)%Z then PosInf else Fin v.

Definition negate (x : number) : number :=
  match x with
  | Fin z => if (z =? 0)%Z then NegZero else Fin (- z)
  | NegZero => Fin 0
  | PosInf => NegInf
  | NegInf => PosInf
  | NaN => NaN
  end.

Definition digit_value (c : char) : Z := Z.of_N (c - 48).

(** The integer a run of decimal digits denotes. *)
Definition decimal (ds : jsstring) : Z :=
  fold_left (fun acc c => (10 * acc + digit_value c)%Z) ds 0%Z.

(** [parseInt(s, 10)]: leading white space is skipped, one sign is
    accepted, the longest run of decimal digits is read; no digit at
    all gives NaN.  (For more than 20 significant digits ECMAScript
    lets an implementation approximate; the exact value is rounded
    here.) *)
Definition parseInt10 (s : jsstring) : number :=
  let s1 := trimStart s in
  let '(neg, s2) :=
    match s1 with
    | c :: s' =>
        if (c =? 45)%N then (true, s')
        else if (c =? 43)%N then (false, s')
        else (false, s1)
    | [] => (false, s1)
    end in
  let ds := takeWhile is_digit s2 in
  match ds with
  | [] => NaN
  | _ :: _ =>
      let v := to_double (decimal ds) in
      if neg then negate v else v
  end.

Definition isNaN (x : number) : bool :=
  match x with NaN => true | _ => false end.

(* ================================================================== *)
(** ** Game state and [parseAndUpdateState] *)
(* ================================================================== *)

(** The two module-level variables [playerHealth] and
    [playerInventory]. *)
Record game : Type := Game {
  playerHealth : number;
  playerInventory : list jsstring
}.

Definition initial_game : game :=
  {| playerHealth := Fin 100; playerInventory := [] |}.

Definition START : jsstring := lit "[STATUS]".
Definition FINISH : jsstring := lit "[/STATUS]".
Definition HEALTH : jsstring := lit "[STATUS]HEALTH:".
Definition INVENTORY : jsstring := lit ",INVENTORY:".

(** [/\[STATUS\]HEALTH:(\d+),INVENTORY:(.*?)\[\/STATUS\]/s] *)
Definition statusRegex : regex :=
  RSeq (rlit HEALTH)
    (RSeq (RGroup 1 (rplus CDigit))
       (RSeq (rlit INVENTORY)
          (RSeq (RGroup 2 (RStar false CAny))
             (rlit FINISH)))).

(** [/\[STATUS\].*\[\/STATUS\]/s], the pattern of the streaming loops. *)
Definition streamRegex : regex :=
  RSeq (rlit START) (RSeq (RStar true CAny) (rlit FINISH)).

Definition group (i : nat) (caps : captures) : jsstring :=
  match capture i caps with Some v => v | None => [] end.

(** [match[2] ? match[2].split(',').map(item => item.trim()).filter(Boolean) : []] *)
Definition inventory_items (field : jsstring) : list jsstring :=
  if truthy field then filter truthy (map trim (split 44%N field)) else [].

(** [parseAndUpdateState]: the narrative it returns and the game state
    it leaves. *)
Definition parseAndUpdateState (responseText : jsstring) (g : game)
  : jsstring * game :=
  let g' :=
    match regex_match statusRegex responseText with
    | Some (_, _, caps) =>
        let newHealth := parseInt10 (group 1 caps) in
        {| playerHealth :=
             if isNaN newHealth then playerHealth g else newHealth;
           playerInventory := inventory_items (group 2 caps) |}
    | None => g
    end in
  (trim (replace_empty statusRegex responseText), g').

(** The text the streaming loops write into the page after a chunk. *)
Definition stream_display (responseText : jsstring) : jsstring :=
  trim (replace_empty streamRegex responseText).

(* ================================================================== *)
(** ** The page and one turn *)
(* ================================================================== *)

(** A paragraph of [gameOutput]: whose message it is, its text node and
    whether the blinking cursor span is still attached. *)
Inductive sender : Type := user | gemini.

Record message : Type := Message {
  from : sender;
  nodeValue : jsstring;
  cursor : bool
}.

(** What the handlers read and write: the game state, the paragraphs of
    [gameOutput], the value of [promptInput] and the disabled flag that
    [setFormDisabled] puts on the input, the button and the form.  (The
    two status spans that [updateStatusUI] repaints are functions of
    the game state and are left out.) *)
Record page : Type := Page {
  state : game;
  gameOutput : list message;
  promptValue : jsstring;
  formDisabled : bool
}.

Definition initial_page : page :=
  {| state := initial_game; gameOutput := [];
     promptValue := []; formDisabled := false |}.

Definition setFormDisabled (isDisabled : bool) (p : page) : page :=
  {| state := state p; gameOutput := gameOutput p;
     promptValue := promptValue p; formDisabled := isDisabled |}.

Definition appendMessage (content : jsstring) (who : sender) (p : page)
  : page :=
  {| state := state p;
     gameOutput := gameOutput p ++ [Message who content false];
     promptValue := promptValue p; formDisabled := formDisabled p |}.

(** [createStreamingMessage]: the new paragraph and its position among
    the children of [gameOutput], which stands for the element
    reference the handler keeps. *)
Definition createStreamingMessage (p : page) : nat * page :=
  (List.length (gameOutput p),
   {| state := state p;
      gameOutput := gameOutput p ++ [Message gemini [] true];
      promptValue := promptValue p; formDisabled := formDisabled p |}).

Fixpoint update_nth (n : nat) (f : message -> message) (l : list message)
  : list message :=
  match l, n with
  | [], _ => []
  | m :: l', O => f m :: l'
  | m :: l', S n' => m :: update_nth n' f l'
  end.

(** [el.childNodes[0].nodeValue = t] *)
Definition set_nodeValue (el : nat) (t : jsstring) (p : page) : page :=
  {| state := state p;
     gameOutput :=
       update_nth el (fun m => Message (from m) t (cursor m)) (gameOutput p);
     promptValue := promptValue p; formDisabled := formDisabled p |}.

(** [el.querySelector('.cursor')?.remove()] *)
Definition remove_cursor (el : nat) (p : page) : page :=
  {| state := state p;
     gameOutput :=
       update_nth el (fun m => Message (from m) (nodeValue m) false)
         (gameOutput p);
     promptValue := promptValue p; formDisabled := formDisabled p |}.

Definition set_state (g : game) (p : page) : page :=
  {| state := g; gameOutput := gameOutput p;
     promptValue := promptValue p; formDisabled := formDisabled p |}.

(** What [chat.sendMessageStream] does for one prompt: the promise is
    rejected, or a stream is obtained that yields the texts of its
    chunks and then ends, or throws.  Each [chunk.text] is taken to be
    a string. *)
Inductive stream_end : Type := EndOfStream | StreamError.

Inductive reply : Type :=
| Rejected
| Stream (chunks : list jsstring) (ending : stream_end).

(** The [for await] loop: after each chunk, the accumulated
    [responseText] and the page. *)
Fixpoint stream_loop (el : nat) (responseText : jsstring)
         (chunks : list jsstring) (p : page) : list (jsstring * page) :=
  match chunks with
  | [] => []
  | chunk :: chunks' =>
      let responseText' := responseText ++ chunk in
      let p' := set_nodeValue el (stream_display responseText') p in
      (responseText', p') :: stream_loop el responseText' chunks' p'
  end.

(** The statements after the loop. *)
Definition finalize (el : nat) (responseText : jsstring) (p : page) : page :=
  let '(finalNarrative, g) := parseAndUpdateState responseText (state p) in
  setFormDisabled false
    (remove_cursor el (set_nodeValue el finalNarrative (set_state g p))).

(** The part the submit listener and [startGame] have in common, from
    the call of [sendMessageStream] on.  The result lists the pages an
    observer can see, one per stretch of synchronous code: on entry,
    after the streaming paragraph is created, after each chunk, and
    after the final statements when the stream ends.  A rejection or a
    stream error propagates out of the handler, which has no [try], and
    nothing after it runs. *)
Definition receive (r : reply) (p : page) : list page :=
  match r with
  | Rejected => [p]
  | Stream chunks ending =>
      let '(el, p1) := createStreamingMessage p in
      let steps := stream_loop el [] chunks p1 in
      let '(responseText, p2) := last steps (([] : jsstring), p1) in
      [p; p1] ++ map snd steps ++
      match ending with
      | EndOfStream => [finalize el responseText p2]
      | StreamError => []
      end
  end.

(** [startGame]. *)
Definition startGame (r : reply) (p : page) : list page :=
  receive r (setFormDisabled true p).

(** The submit listener. *)
Definition submit (r : reply) (p : page) : list page :=
  let userPrompt := trim (promptValue p) in
  if truthy userPrompt then
    let p1 := appendMessage (lit "> " ++ userPrompt) user
                (setFormDisabled true p) in
    receive r {| state := state p1; gameOutput := gameOutput p1;
                 promptValue := []; formDisabled := formDisabled p1 |}
  else [p].

(** The text node of paragraph [el], when there is such a paragraph. *)
Definition shown (el : nat) (p : page) : option jsstring :=
  option_map nodeValue (nth_error (gameOutput p) el).

(** The user edits the prompt field. *)
Definition type_prompt (v : jsstring) (p : page) : page :=
  {| state := state p; gameOutput := gameOutput p;
     promptValue := v; formDisabled := formDisabled p |}.

(** The pages a session can show: [main] calls [startGame] on the page
    as loaded; afterwards the user types and submits, which the browser
    allows only while the form controls are enabled. *)
Inductive reachable : page -> Prop :=
| reach_start r p :
    In p (startGame r initial_page) -> reachable p
| reach_type v p :
    reachable p -> formDisabled p = false -> reachable (type_prompt v p)
| reach_submit r p p' :
    reachable p -> formDisabled p = false -> In p' (submit r p) ->
    reachable p'.

(* ================================================================== *)
(** ** Explicit scanners *)
(* ================================================================== *)

(** The first and the last occurrence of [pat] in [s]: the text before
    it and the text after it. *)
Fixpoint find_first (pat s : jsstring) : option (jsstring * jsstring) :=
  match strip_prefix pat s with
  | Some rest => Some ([], rest)
  | None =>
      match s with
      | [] => None
      | c :: s' =>
          match find_first pat s' with
          | Some (a, b) => Some (c :: a, b)
          | None => None
          end
      end
  end.

Fixpoint find_last (pat s : jsstring) : option (jsstring * jsstring) :=
  match s with
  | [] =>
      match strip_prefix pat [] with
      | Some rest => Some ([], rest)
      | None => None
      end
  | c :: s' =>
      match find_last pat s' with
      | Some (a, b) => Some (c :: a, b)
      | None =>
          match strip_prefix pat s with
          | Some rest => Some ([], rest)
          | None => None
          end
      end
  end.

(** What [statusRegex] matches at the front of [s], read off the
    grammar of the marker: the health digits, the inventory field and
    the text after the end sentinel. *)
Definition scan_status (s : jsstring)
  : option (jsstring * jsstring * jsstring) :=
  match strip_prefix HEALTH s with
  | None => None
  | Some s1 =>
      match takeWhile is_digit s1 with
      | [] => None
      | d =>
          match strip_prefix INVENTORY (dropWhile is_digit s1) with
          | None => None
          | Some s3 =>
              match find_first FINISH s3 with
              | Some (inv, rest) => Some (d, inv, rest)
              | None => None
              end
          end
      end
  end.

(** What [streamRegex] matches at the front of [s]: the text after the
    last end sentinel. *)
Definition scan_stream (s : jsstring) : option jsstring :=
  match strip_prefix START s with
  | None => None
  | Some s1 =>
      match find_last FINISH s1 with
      | Some (_, rest) => Some rest
      | None => None
      end
  end.

(** [pat] occurs in [a ++ pat ++ b] at position [length a] and nowhere
    before (after). *)
Definition first_at (pat a b : jsstring) : Prop :=
  forall a' b', a ++ pat ++ b = a' ++ pat ++ b' ->
                List.length a <= List.length a'.

Definition last_at (pat a b : jsstring) : Prop :=
  forall a' b', a ++ pat ++ b = a' ++ pat ++ b' ->
                List.length a' <= List.length a.

Definition occurs (pat s : jsstring) : Prop :=
  exists a b, s = a ++ pat ++ b.

(** A well-formed marker sits somewhere in [s]. *)
Definition has_marker (s : jsstring) : Prop :=
  exists pre d inv post,
    s = pre ++ HEALTH ++ d ++ INVENTORY ++ inv ++ FINISH ++ post
    /\ d <> [] /\ forallb is_digit d = true.

(** The well-formed marker that starts right after [pre] is the first
    well-formed marker of the text [pre ++ rest]. *)
Definition first_marker_at (pre rest : jsstring) : Prop :=
  forall pre' d inv post,
    pre ++ rest = pre' ++ HEALTH ++ d ++ INVENTORY ++ inv ++ FINISH ++ post ->
    d <> [] -> forallb is_digit d = true ->
    List.length pre <= List.length pre'.

(** A span from a start sentinel to a later end sentinel. *)
Definition has_span (s : jsstring) : Prop :=
  exists pre mid post, s = pre ++ START ++ mid ++ FINISH ++ post.

(** Properties of a game state: the health is a non-negative integer;
    an inventory entry is a non-empty string without surrounding white
    space. *)
Definition nonneg_integer (x : number) : Prop :=
  exists z, x = Fin z /\ (0 <= z)%Z.

Definition item_ok (it : jsstring) : Prop := it <> [] /\ trim it = it.

Definition state_ok (g : game) : Prop :=
  (nonneg_integer (playerHealth g) \/ playerHealth g = PosInf)
  /\ Forall item_ok (playerInventory g).

(** A reply whose marker carries a health of 310 nines. *)
Definition long_health_reply : reply :=
  Stream [lit "[STATUS]HEALTH:" ++ repeat 57%N 310
            ++ lit ",INVENTORY:[/STATUS]"] EndOfStream.

(** A reply in two chunks with a well-formed marker. *)
Definition sample_reply : reply :=
  Stream [lit "You wake.";
          [10%N] ++ lit "[STATUS]HEALTH:90,INVENTORY:key[/STATUS]"]
    EndOfStream.

Definition nl : jsstring := [10%N].

(* ================================================================== *)
(** ** The status panel *)
(* ================================================================== *)

(** [arr.join(sep)] for an array of strings. *)
Fixpoint join (sep : jsstring) (l : list jsstring) : jsstring :=
  match l with
  | [] => []
  | x :: l' =>
      match l' with
      | [] => x
      | _ :: _ => x ++ sep ++ join sep l'
      end
  end.

(** The text of the two status spans. *)
Record status_panel : Type := Panel {
  healthValue : jsstring;
  inventoryList : jsstring
}.

(** [updateStatusUI]: the texts it writes, for a game state.  The
    built-in [Number.prototype.toString] is the parameter [toString]. *)
Definition updateStatusUI (toString : number -> jsstring) (g : game)
  : status_panel :=
  {| healthValue := toString (playerHealth g);
     inventoryList :=
       match playerInventory g with
       | [] => lit "Empty"
       | _ :: _ => join (lit ", ") (playerInventory g)
       end |}.

(** The decimal numeral of a non-negative integer, which is what
    [toString] gives for the integers every double represents exactly
    (those below 2^53). *)
Fixpoint digits_fuel (fuel : nat) (z : Z) (acc : jsstring) : jsstring :=
  match fuel with
  | O => acc
  | S f =>
      let acc' := (48 + Z.to_N (z mod 10))%N :: acc in
      if (z <? 10)%Z then acc' else digits_fuel f (z / 10) acc'
  end.

Definition decimal_digits (z : Z) : jsstring :=
  digits_fuel (S (Z.to_nat (Z.log2 z))) z [].

(** A run of digits without its leading zeros (["0"] when nothing else
    is left). *)
Definition strip_zeros (d : jsstring) : jsstring :=
  match dropWhile (fun c => (c =? 48)%N) d with
  | [] => [48%N]
  | x => x
  end.

(** [toString] agrees with the decimal numeral on the safe integers. *)
Definition prints_safe_integers (toString : number -> jsstring) : Prop :=
  forall z, (0 <= z < 2 ^ 53)%Z -> toString (Fin z) = decimal_digits z.

(** A [toString] that prints the safe integers and nothing else. *)
Definition toString_safe (x : number) : jsstring :=
  match x with
  | Fin z => decimal_digits z
  | _ => []
  end.

(* ================================================================== *)
(** ** Shapes of texts and transcripts *)
(* ================================================================== *)

(** A text with no white space at either end. *)
Definition no_outer_white (t : jsstring) : Prop :=
  match t with [] => True | c :: _ => is_white c = false end
  /\ match rev t with [] => True | c :: _ => is_white c = false end.

(** [c] is the piece [r] without the white space at its two ends. *)
Definition piece_core (r c : jsstring) : Prop :=
  exists a b,
    r = a ++ c ++ b
    /\ forallb is_white a = true /\ forallb is_white b = true
    /\ no_outer_white c.

(** A call returns a value or throws. *)
Inductive completion (A : Type) : Type :=
| Normal (a : A)
| Thrown.

Arguments Normal {A} a.
Arguments Thrown {A}.

Definition and_then {A B : Type} (c : completion A)
           (k : A -> completion B) : completion B :=
  match c with
  | Normal a => k a
  | Thrown => Thrown
  end.

(** [parseAndUpdateState] as a call that could throw, statement by
    statement.  Applied to strings, [match], [parseInt], [isNaN],
    [split], [map] with [trim], [filter] and [replace] all return, and
    so do the two assignments. *)
Definition parseAndUpdateState_call (responseText : jsstring) (g : game)
  : completion (jsstring * game) :=
  and_then (Normal (regex_match statusRegex responseText)) (fun m =>
  and_then
    match m with
    | Some (_, _, caps) =>
        and_then (Normal (parseInt10 (group 1 caps))) (fun newHealth =>
        and_then (Normal (inventory_items (group 2 caps)))
          (fun inventoryItems =>
        Normal {| playerHealth :=
                    if isNaN newHealth then playerHealth g else newHealth;
                  playerInventory := inventoryItems |}))
    | None => Normal g
    end (fun g' =>
  and_then (Normal (trim (replace_empty statusRegex responseText)))
    (fun narrative =>
  Normal (narrative, g')))).

Definition sender_eqb (a b : sender) : bool :=
  match a, b with
  | user, user => true
  | gemini, gemini => true
  | _, _ => false
  end.

Definition other (a : sender) : sender :=
  match a with user => gemini | gemini => user end.

(** The paragraphs come from [next], then from the other side, and so
    on in turn. *)
Fixpoint alternating (next : sender) (l : list message) : bool :=
  match l with
  | [] => true
  | m :: l' => sender_eqb (from m) next && alternating (other next) l'
  end.

(** The transcript of a page whose form is enabled: replies and prompts
    in turn, a reply first and a reply last, no cursor left. *)
Definition settled (l : list message) : Prop :=
  alternating gemini l = true
  /\ Nat.odd (List.length l) = true
  /\ Forall (fun m => cursor m = false) l.

(* ================================================================== *)
(** ** Strings *)
(* ================================================================== *)

Lemma strip_prefix_app (l s : jsstring) : strip_prefix l (l ++ s) = Some s.
Proof.
  induction l as [|c l IH]; simpl; [reflexivity|].
  now rewrite N.eqb_refl.
Qed.

Lemma strip_prefix_Some (l s r : jsstring) :
  strip_prefix l s = Some r -> s = l ++ r.
Proof.
  revert s; induction l as [|c l IH]; intros s H; simpl in *.
  - now inversion H.
  - destruct s as [|d s]; [discriminate|].
    destruct (N.eqb_spec d c); [|discriminate].
    subst; f_equal; auto.
Qed.

Lemma strip_prefix_None (l s : jsstring) :
  strip_prefix l s = None -> forall r, s <> l ++ r.
Proof.
  intros H r ->. now rewrite strip_prefix_app in H.
Qed.

Lemma take_drop_while (p : char -> bool) (s : jsstring) :
  takeWhile p s ++ dropWhile p s = s.
Proof.
  induction s as [|c s IH]; simpl; [reflexivity|].
  destruct (p c); simpl; [now rewrite IH | reflexivity].
Qed.

Lemma takeWhile_all (p : char -> bool) (s : jsstring) :
  forallb p (takeWhile p s) = true.
Proof.
  induction s as [|c s IH]; simpl; [reflexivity|].
  destruct (p c) eqn:E; simpl; [now rewrite E | reflexivity].
Qed.

Lemma takeWhile_app (p : char -> bool) (d s : jsstring) :
  forallb p d = true ->
  (match s with [] => True | c :: _ => p c = false end) ->
  takeWhile p (d ++ s) = d /\ dropWhile p (d ++ s) = s.
Proof.
  intros Hd Hs. induction d as [|c d IH]; simpl in *.
  - destruct s as [|c s]; simpl; [auto|]. now rewrite Hs.
  - apply andb_true_iff in Hd as [Hc Hd]. rewrite Hc.
    destruct (IH Hd) as [-> ->]. auto.
Qed.

Lemma dropWhile_head (p : char -> bool) (s : jsstring) :
  match dropWhile p s with [] => True | c :: _ => p c = false end.
Proof.
  induction s as [|c s IH]; simpl; [exact I|].
  destruct (p c) eqn:E; [exact IH | exact E].
Qed.

Lemma firstn_length_diff (a b : jsstring) :
  firstn (List.length (a ++ b) - List.length b) (a ++ b) = a.
Proof.
  rewrite length_app.
  replace (List.length a + List.length b - List.length b)
    with (List.length a + 0) by lia.
  rewrite firstn_app_2. simpl. apply app_nil_r.
Qed.

(* ================================================================== *)
(** ** The matcher on the shapes the two patterns are made of *)
(* ================================================================== *)

Section MatcherFacts.
Variable A : Type.
Implicit Types (k : jsstring -> option A) (s : jsstring).

Lemma star_ext g p k1 k2 s :
  (forall s', k1 s' = k2 s') -> star g p k1 s = star g p k2 s.
Proof.
  intros E. induction s as [|c s IH]; simpl; [apply E|].
  rewrite IH, E. reflexivity.
Qed.

(** A literal either is at the front of the input or the match fails. *)
Lemma rmatch_rlit l s caps (k : jsstring -> captures -> option A) :
  rmatch (rlit l) s caps k =
  match strip_prefix l s with
  | Some r => k r caps
  | None => None
  end.
Proof.
  revert s; induction l as [|c l IH]; intros s; simpl; [reflexivity|].
  destruct s as [|d s]; [reflexivity|].
  destruct (d =? c)%N; [apply IH | reflexivity].
Qed.

(** The lazy [.*?] before a literal stops at its first occurrence. *)
Lemma star_lazy_until pat (f : jsstring -> jsstring -> A) s :
  star false CAny
    (fun s' => match strip_prefix pat s' with
               | Some r => Some (f s' r)
               | None => None
               end) s =
  match find_first pat s with
  | Some (_, b) => Some (f (pat ++ b) b)
  | None => None
  end.
Proof.
  induction s as [|c s IH]; simpl.
  - destruct (strip_prefix pat []) as [r|] eqn:E; [|reflexivity].
    now rewrite <- (strip_prefix_Some _ _ _ E).
  - destruct (strip_prefix pat (c :: s)) as [r|] eqn:E.
    + now rewrite <- (strip_prefix_Some _ _ _ E).
    + rewrite IH. destruct (find_first pat s) as [[a b]|]; reflexivity.
Qed.

(** The greedy [.*] before a literal stops at its last occurrence. *)
Lemma star_greedy_until pat (f : jsstring -> jsstring -> A) s :
  star true CAny
    (fun s' => match strip_prefix pat s' with
               | Some r => Some (f s' r)
               | None => None
               end) s =
  match find_last pat s with
  | Some (_, b) => Some (f (pat ++ b) b)
  | None => None
  end.
Proof.
  induction s as [|c s IH]; simpl.
  - destruct (strip_prefix pat []) as [r|] eqn:E; [|reflexivity].
    now rewrite <- (strip_prefix_Some _ _ _ E).
  - rewrite IH. destruct (find_last pat s) as [[a b]|]; [reflexivity|].
    destruct (strip_prefix pat (c :: s)) as [r|] eqn:E; [|reflexivity].
    now rewrite <- (strip_prefix_Some _ _ _ E).
Qed.

(** The greedy [\d*] before something that cannot start with a digit
    never gives a digit back. *)
Lemma star_digits k s :
  (forall c s', is_digit c = true -> k (c :: s') = None) ->
  star true CDigit k s = k (dropWhile is_digit s).
Proof.
  intros Hk. induction s as [|c s IH]; simpl; [reflexivity|].
  destruct (is_digit c) eqn:E; [|reflexivity].
  rewrite IH. rewrite (Hk c s E).
  destruct (k (dropWhile is_digit s)); reflexivity.
Qed.
End MatcherFacts.

Lemma find_first_Some (pat s a b : jsstring) :
  find_first pat s = Some (a, b) -> s = a ++ pat ++ b.
Proof.
  revert a; induction s as [|c s IH]; intros a; simpl.
  - destruct (strip_prefix pat []) as [r|] eqn:E; [|discriminate].
    intros H; inversion H; subst. simpl. now apply strip_prefix_Some.
  - destruct (strip_prefix pat (c :: s)) as [r|] eqn:E.
    + intros H; inversion H; subst. simpl. now apply strip_prefix_Some.
    + destruct (find_first pat s) as [[a' b']|]; [|discriminate].
      intros H; inversion H; subst. simpl. f_equal. now apply IH.
Qed.

Lemma find_last_Some (pat s a b : jsstring) :
  find_last pat s = Some (a, b) -> s = a ++ pat ++ b.
Proof.
  revert a; induction s as [|c s IH]; intros a; simpl.
  - destruct (strip_prefix pat []) as [r|] eqn:E; [|discriminate].
    intros H; inversion H; subst. simpl. now apply strip_prefix_Some.
  - destruct (find_last pat s) as [[a' b']|].
    + intros H; inversion H; subst. simpl. f_equal. now apply IH.
    + destruct (strip_prefix pat (c :: s)) as [r|] eqn:E; [|discriminate].
      intros H; inversion H; subst. simpl. now apply strip_prefix_Some.
Qed.

Lemma find_first_None (pat s : jsstring) :
  find_first pat s = None -> ~ occurs pat s.
Proof.
  induction s as [|c s IH]; simpl.
  - destruct (strip_prefix pat []) as [r|] eqn:E; [discriminate|].
    intros _ (a & b & H). destruct a; simpl in H.
    + now apply (strip_prefix_None _ _ E b).
    + discriminate.
  - destruct (strip_prefix pat (c :: s)) as [r|] eqn:E; [discriminate|].
    destruct (find_first pat s) as [[a' b']|]; [discriminate|].
    intros _ (a & b & H). destruct a as [|x a]; simpl in H.
    + now apply (strip_prefix_None _ _ E b).
    + inversion H; subst. apply IH; [reflexivity|]. now exists a, b.
Qed.

Lemma find_last_None (pat s : jsstring) :
  find_last pat s = None -> ~ occurs pat s.
Proof.
  induction s as [|c s IH]; simpl.
  - destruct (strip_prefix pat []) as [r|] eqn:E; [discriminate|].
    intros _ (a & b & H). destruct a; simpl in H.
    + now apply (strip_prefix_None _ _ E b).
    + discriminate.
  - destruct (find_last pat s) as [[a' b']|]; [discriminate|].
    destruct (strip_prefix pat (c :: s)) as [r|] eqn:E; [discriminate|].
    intros _ (a & b & H). destruct a as [|x a]; simpl in H.
    + now apply (strip_prefix_None _ _ E b).
    + inversion H; subst. apply IH; [reflexivity|]. now exists a, b.
Qed.

Lemma first_at_tail (pat : jsstring) c a b :
  first_at pat (c :: a) b -> first_at pat a b.
Proof.
  intros H a' b' E.
  specialize (H (c :: a') b'). simpl in H. rewrite E in H.
  specialize (H eq_refl). lia.
Qed.

Lemma find_first_at (pat a b : jsstring) :
  first_at pat a b -> find_first pat (a ++ pat ++ b) = Some (a, b).
Proof.
  induction a as [|c a IH]; intros H.
  - simpl. destruct (pat ++ b) eqn:E; simpl;
      rewrite <- E, strip_prefix_app; reflexivity.
  - simpl.
    destruct (strip_prefix pat (c :: a ++ pat ++ b)) as [r|] eqn:E.
    + apply strip_prefix_Some in E.
      specialize (H [] r). simpl in H. specialize (H E). lia.
    + rewrite IH; [reflexivity|]. now apply first_at_tail with c.
Qed.

Lemma find_last_at (pat a b : jsstring) :
  last_at pat a b -> find_last pat (a ++ pat ++ b) = Some (a, b).
Proof.
  induction a as [|c a IH]; intros H.
  - simpl app at 1.
    destruct (find_last pat (pat ++ b)) as [[a' b']|] eqn:E.
    + pose proof (find_last_Some _ _ _ _ E) as E'.
      specialize (H a' b' E'). destruct a'; simpl in H; [|lia].
      simpl in E'. apply app_inv_head in E'. now subst.
    + exfalso. apply (find_last_None _ _ E). now exists [], b.
  - simpl. rewrite IH; [reflexivity|].
    intros a' b' E. specialize (H (c :: a') b'). simpl in H.
    rewrite E in H. specialize (H eq_refl). lia.
Qed.

Lemma rmatch_seq {A} r1 r2 s caps (k : jsstring -> captures -> option A) :
  rmatch (RSeq r1 r2) s caps k =
  rmatch r1 s caps (fun s1 c1 => rmatch r2 s1 c1 k).
Proof. reflexivity. Qed.

Lemma rmatch_lazy_group {A} i fin s caps (f : jsstring -> captures -> A) :
  rmatch (RSeq (RGroup i (RStar false CAny)) (rlit fin)) s caps
    (fun s' c => Some (f s' c)) =
  match find_first fin s with
  | Some (a, b) => Some (f b ((i, a) :: caps))
  | None => None
  end.
Proof.
  rewrite rmatch_seq. cbn [rmatch].
  erewrite star_ext.
  2:{ intros s'. rewrite rmatch_rlit.
      instantiate
        (1 := fun s' =>
                match strip_prefix fin s' with
                | Some r =>
                    Some ((fun s' r =>
                             f r ((i, firstn (List.length s - List.length s') s)
                                    :: caps)) s' r)
                | None => None
                end).
      reflexivity. }
  rewrite star_lazy_until.
  destruct (find_first fin s) as [[a b]|] eqn:E; [|reflexivity].
  apply find_first_Some in E. subst s.
  now rewrite firstn_length_diff.
Qed.

Lemma digit_not_comma c s :
  is_digit c = true -> strip_prefix INVENTORY (c :: s) = None.
Proof.
  intros H. change INVENTORY with (44%N :: lit "INVENTORY:").
  cbn [strip_prefix]. destruct (N.eqb_spec c 44); [|reflexivity].
  subst. discriminate.
Qed.

(** At a given position the final pattern matches exactly what the
    explicit scanner reads, with the digits as capture 1 and the
    inventory field as capture 2. *)
Lemma match_here_status s :
  match_here statusRegex s =
  match scan_status s with
  | Some (d, inv, rest) => Some (rest, [(2, inv); (1, d)])
  | None => None
  end.
Proof.
  unfold match_here, statusRegex, scan_status.
  rewrite rmatch_seq, rmatch_rlit.
  destruct (strip_prefix HEALTH s) as [s1|]; [|reflexivity].
  rewrite rmatch_seq. unfold rplus. cbn [rmatch].
  destruct s1 as [|c s1]; [reflexivity|].
  cbn [takeWhile dropWhile cls_match].
  destruct (is_digit c) eqn:Hc; [|reflexivity].
  rewrite star_digits.
  2:{ intros c0 s0 H0. rewrite rmatch_rlit.
      now rewrite digit_not_comma. }
  rewrite rmatch_rlit.
  destruct (strip_prefix INVENTORY (dropWhile is_digit s1)) as [s3|];
    [|reflexivity].
  match goal with
  | |- star false CAny (fun s' => rmatch _ _ (_ :: ?cs) _) s3 = _ =>
      pose proof (rmatch_lazy_group 2 FINISH s3 cs (fun s' c => (s', c)))
        as L
  end.
  rewrite rmatch_seq in L. cbn [rmatch] in L. rewrite L. clear L.
  destruct (find_first FINISH s3) as [[inv rest]|]; [|reflexivity].
  do 4 f_equal.
  rewrite <- (take_drop_while is_digit s1) at 1 3.
  change (c :: takeWhile is_digit s1 ++ dropWhile is_digit s1)
    with ((c :: takeWhile is_digit s1) ++ dropWhile is_digit s1).
  now rewrite firstn_length_diff.
Qed.

(** At a given position the streaming pattern matches from the start
    sentinel through the last end sentinel. *)
Lemma match_here_stream s :
  match_here streamRegex s =
  match scan_stream s with
  | Some rest => Some (rest, [])
  | None => None
  end.
Proof.
  unfold match_here, streamRegex, scan_stream.
  rewrite rmatch_seq, rmatch_rlit.
  destruct (strip_prefix START s) as [s1|]; [|reflexivity].
  rewrite rmatch_seq. cbn [rmatch].
  erewrite star_ext.
  2:{ intros s'. rewrite rmatch_rlit.
      instantiate
        (1 := fun s' =>
                match strip_prefix FINISH s' with
                | Some r => Some ((fun _ r => (r, [])) s' r)
                | None => None
                end).
      reflexivity. }
  rewrite star_greedy_until.
  destruct (find_last FINISH s1) as [[a b]|]; reflexivity.
Qed.

(* ================================================================== *)
(** ** The leftmost match *)
(* ================================================================== *)

Lemma search_hit r i s rest caps :
  match_here r s = Some (rest, caps) -> search r i s = Some (i, rest, caps).
Proof. intros H. destruct s; simpl; now rewrite H. Qed.

Lemma search_skip r i pre suf :
  (forall a b, pre = a ++ b -> b <> [] -> match_here r (b ++ suf) = None) ->
  search r i (pre ++ suf) = search r (i + List.length pre) suf.
Proof.
  revert i; induction pre as [|c pre IH]; intros i H.
  - simpl. now rewrite Nat.add_0_r.
  - simpl app. cbn [search].
    pose proof (H [] (c :: pre) eq_refl ltac:(discriminate)) as H0.
    simpl app in H0. rewrite H0.
    rewrite IH.
    + simpl. f_equal. lia.
    + intros a b -> Hb. apply (H (c :: a) b); auto.
Qed.

Lemma search_none r i s :
  (forall a b, s = a ++ b -> match_here r b = None) -> search r i s = None.
Proof.
  revert i; induction s as [|c s IH]; intros i H.
  - simpl. now rewrite (H [] [] eq_refl).
  - cbn [search]. rewrite (H [] (c :: s) eq_refl).
    apply IH. intros a b ->. now apply (H (c :: a) b).
Qed.

Lemma search_Some r i s j rest caps :
  search r i s = Some (j, rest, caps) ->
  exists pre suf, s = pre ++ suf /\ j = i + List.length pre
                  /\ match_here r suf = Some (rest, caps).
Proof.
  revert i; induction s as [|c s IH]; intros i; cbn [search].
  - destruct (match_here r []) as [[r0 c0]|] eqn:E; [|discriminate].
    intros H; inversion H; subst. exists [], []. simpl. auto.
  - destruct (match_here r (c :: s)) as [[r0 c0]|] eqn:E.
    + intros H; inversion H; subst. exists [], (c :: s). simpl. auto.
    + intros H. destruct (IH _ H) as (pre & suf & -> & -> & Hm).
      exists (c :: pre), suf. simpl. repeat split; auto; lia.
Qed.

Lemma search_some_if r i pre suf :
  match_here r suf <> None -> search r i (pre ++ suf) <> None.
Proof.
  revert i; induction pre as [|c pre IH]; intros i H.
  - simpl. destruct (match_here r suf) as [[r0 c0]|] eqn:E; [|congruence].
    now rewrite (search_hit _ i _ _ _ E).
  - simpl app. cbn [search].
    destruct (match_here r (c :: pre ++ suf)) as [[r0 c0]|]; [discriminate|].
    now apply IH.
Qed.

(* ================================================================== *)
(** ** Where the two patterns match *)
(* ================================================================== *)

Lemma HEALTH_START : HEALTH = START ++ lit "HEALTH:".
Proof. reflexivity. Qed.

Lemma INVENTORY_head s :
  match INVENTORY ++ s with [] => True | c :: _ => is_digit c = false end.
Proof. reflexivity. Qed.

Lemma scan_status_Some s d inv rest :
  scan_status s = Some (d, inv, rest) ->
  s = HEALTH ++ d ++ INVENTORY ++ inv ++ FINISH ++ rest
  /\ d <> [] /\ forallb is_digit d = true.
Proof.
  unfold scan_status.
  destruct (strip_prefix HEALTH s) as [s1|] eqn:E1; [|discriminate].
  destruct (takeWhile is_digit s1) as [|c d0] eqn:Ed; [discriminate|].
  destruct (strip_prefix INVENTORY (dropWhile is_digit s1)) as [s3|] eqn:E3;
    [|discriminate].
  destruct (find_first FINISH s3) as [[inv0 rest0]|] eqn:E4; [|discriminate].
  intros H; inversion H; subst.
  apply strip_prefix_Some in E1, E3. apply find_first_Some in E4.
  split; [|split].
  - rewrite E1. f_equal. rewrite <- (take_drop_while is_digit s1).
    now rewrite Ed, E3, E4.
  - discriminate.
  - rewrite <- Ed. apply takeWhile_all.
Qed.

Lemma scan_status_marker d inv post :
  d <> [] -> forallb is_digit d = true -> first_at FINISH inv post ->
  scan_status (HEALTH ++ d ++ INVENTORY ++ inv ++ FINISH ++ post)
  = Some (d, inv, post).
Proof.
  intros Hne Hd Hf. unfold scan_status. rewrite strip_prefix_app.
  destruct (takeWhile_app is_digit d (INVENTORY ++ inv ++ FINISH ++ post) Hd
              (INVENTORY_head (inv ++ FINISH ++ post))) as [-> ->].
  destruct d as [|c d]; [congruence|].
  rewrite strip_prefix_app, (find_first_at _ _ _ Hf). reflexivity.
Qed.

Lemma scan_status_occurs d inv post :
  d <> [] -> forallb is_digit d = true ->
  scan_status (HEALTH ++ d ++ INVENTORY ++ inv ++ FINISH ++ post) <> None.
Proof.
  intros Hne Hd. unfold scan_status. rewrite strip_prefix_app.
  destruct (takeWhile_app is_digit d (INVENTORY ++ inv ++ FINISH ++ post) Hd
              (INVENTORY_head (inv ++ FINISH ++ post))) as [-> ->].
  destruct d as [|c d]; [congruence|].
  rewrite strip_prefix_app.
  destruct (find_first FINISH (inv ++ FINISH ++ post)) as [[a b]|] eqn:E;
    [discriminate|].
  exfalso. apply (find_first_None _ _ E). now exists inv, post.
Qed.

(** A position without the start sentinel does not match the streaming
    pattern. *)
Lemma scan_stream_needs_START s :
  scan_stream s <> None -> exists r, s = START ++ r.
Proof.
  unfold scan_stream.
  destruct (strip_prefix START s) as [s1|] eqn:E; [|congruence].
  intros _. apply strip_prefix_Some in E. eauto.
Qed.

(** The final pattern does not match at all exactly when the text holds
    no well-formed marker. *)
Lemma status_match_None s :
  regex_match statusRegex s = None <-> ~ has_marker s.
Proof.
  unfold regex_match. split.
  - intros H (pre & d & inv & post & -> & Hne & Hd).
    revert H. apply search_some_if. rewrite match_here_status.
    pose proof (scan_status_occurs d inv post Hne Hd) as Hs.
    destruct (scan_status _) as [[[? ?] ?]|]; congruence.
  - intros H. apply search_none. intros a b ->.
    rewrite match_here_status.
    destruct (scan_status b) as [[[d inv] rest]|] eqn:E; [|reflexivity].
    exfalso. apply H. apply scan_status_Some in E as (-> & Hne & Hd).
    now exists a, d, inv, rest.
Qed.

(** The final pattern matches the first well-formed marker of the text,
    its inventory field running up to the first end sentinel. *)
Lemma status_match_marker pre d inv post :
  d <> [] -> forallb is_digit d = true ->
  first_marker_at pre (HEALTH ++ d ++ INVENTORY ++ inv ++ FINISH ++ post) ->
  first_at FINISH inv post ->
  regex_match statusRegex
    (pre ++ HEALTH ++ d ++ INVENTORY ++ inv ++ FINISH ++ post)
  = Some (List.length pre, post, [(2, inv); (1, d)]).
Proof.
  intros Hne Hd Hs Hf. unfold regex_match. rewrite search_skip.
  - apply search_hit. rewrite match_here_status.
    now rewrite scan_status_marker.
  - intros a b -> Hb. rewrite match_here_status.
    destruct (scan_status _) as [[[d' inv'] r']|] eqn:E; [|reflexivity].
    exfalso. apply scan_status_Some in E as (E & Hne' & Hd').
    specialize (Hs a d' inv' r'). rewrite <- app_assoc, E in Hs.
    specialize (Hs eq_refl Hne' Hd'). rewrite length_app in Hs.
    destruct b; [congruence|simpl in Hs; lia].
Qed.

(** A marker behind the first start sentinel of the text is its first
    well-formed marker. *)
Lemma first_START_first_marker pre tail :
  first_at START pre tail ->
  first_marker_at pre (START ++ tail).
Proof.
  intros H pre' d inv post E _ _. apply (H pre' (lit "HEALTH:" ++ d ++
    INVENTORY ++ inv ++ FINISH ++ post)).
  rewrite E, HEALTH_START, <- app_assoc. reflexivity.
Qed.

Lemma scan_stream_Some s rest :
  scan_stream s = Some rest -> exists mid, s = START ++ mid ++ FINISH ++ rest.
Proof.
  unfold scan_stream.
  destruct (strip_prefix START s) as [s1|] eqn:E1; [|discriminate].
  destruct (find_last FINISH s1) as [[mid r]|] eqn:E2; [|discriminate].
  intros H; inversion H; subst.
  apply strip_prefix_Some in E1. apply find_last_Some in E2.
  exists mid. now rewrite E1, E2.
Qed.

Lemma scan_stream_span mid post :
  last_at FINISH mid post ->
  scan_stream (START ++ mid ++ FINISH ++ post) = Some post.
Proof.
  intros H. unfold scan_stream.
  now rewrite strip_prefix_app, (find_last_at _ _ _ H).
Qed.

Lemma scan_stream_occurs mid post :
  scan_stream (START ++ mid ++ FINISH ++ post) <> None.
Proof.
  unfold scan_stream. rewrite strip_prefix_app.
  destruct (find_last FINISH (mid ++ FINISH ++ post)) as [[a b]|] eqn:E;
    [discriminate|].
  exfalso. apply (find_last_None _ _ E). now exists mid, post.
Qed.

Lemma stream_match_None s :
  regex_match streamRegex s = None <-> ~ has_span s.
Proof.
  unfold regex_match. split.
  - intros H (pre & mid & post & ->).
    revert H. apply search_some_if. rewrite match_here_stream.
    pose proof (scan_stream_occurs mid post).
    destruct (scan_stream _); congruence.
  - intros H. apply search_none. intros a b ->.
    rewrite match_here_stream.
    destruct (scan_stream b) as [rest|] eqn:E; [|reflexivity].
    exfalso. apply H. apply scan_stream_Some in E as [mid ->].
    now exists a, mid, rest.
Qed.

Lemma stream_match_span pre mid post :
  first_at START pre (mid ++ FINISH ++ post) -> last_at FINISH mid post ->
  regex_match streamRegex (pre ++ START ++ mid ++ FINISH ++ post)
  = Some (List.length pre, post, []).
Proof.
  intros Hs Hl. unfold regex_match. rewrite search_skip.
  - apply search_hit. rewrite match_here_stream.
    now rewrite scan_stream_span.
  - intros a b -> Hb. rewrite match_here_stream.
    destruct (scan_stream _) eqn:E; [|reflexivity].
    exfalso.
    destruct (@scan_stream_needs_START
                (b ++ START ++ mid ++ FINISH ++ post)) as [y Hy];
      [congruence|].
    specialize (Hs a y). rewrite <- app_assoc, Hy in Hs.
    specialize (Hs eq_refl). rewrite length_app in Hs.
    destruct b; [congruence|simpl in Hs; lia].
Qed.

Lemma firstn_length_app (a b : jsstring) :
  firstn (List.length a) (a ++ b) = a.
Proof.
  induction a as [|c a IH]; simpl; [now destruct b | now rewrite IH].
Qed.

(** What the streaming loops show. *)
Lemma stream_display_whole s :
  ~ has_span s -> stream_display s = trim s.
Proof.
  intros H. unfold stream_display, replace_empty.
  apply stream_match_None in H. now rewrite H.
Qed.

Lemma stream_display_span pre mid post :
  first_at START pre (mid ++ FINISH ++ post) -> last_at FINISH mid post ->
  stream_display (pre ++ START ++ mid ++ FINISH ++ post) = trim (pre ++ post).
Proof.
  intros Hs Hl. unfold stream_display, replace_empty.
  rewrite (stream_match_span _ _ _ Hs Hl).
  now rewrite firstn_length_app.
Qed.

(* ================================================================== *)
(** ** [parseInt] on the health capture *)
(* ================================================================== *)

Lemma digit_range c : is_digit c = true -> (48 <= c <= 57)%N.
Proof.
  unfold is_digit. intros H. apply andb_true_iff in H as [H1 H2].
  apply N.leb_le in H1, H2. lia.
Qed.

Lemma digit_not_white c : is_digit c = true -> is_white c = false.
Proof.
  intros H. apply digit_range in H. unfold is_white.
  repeat match goal with
         | |- context [N.eqb ?a ?b] => destruct (N.eqb_spec a b); [lia|]
         | |- context [N.leb ?a ?b] => destruct (N.leb_spec a b)
         end; simpl; try reflexivity; lia.
Qed.

Lemma takeWhile_id (p : char -> bool) d :
  forallb p d = true -> takeWhile p d = d.
Proof.
  induction d as [|c d IH]; simpl; [reflexivity|].
  intros H. apply andb_true_iff in H as [-> H]. now rewrite IH.
Qed.

Lemma parseInt10_digits d :
  d <> [] -> forallb is_digit d = true ->
  parseInt10 d = to_double (decimal d).
Proof.
  intros Hne Hd. destruct d as [|c d]; [congruence|].
  pose proof Hd as Hall. simpl in Hd. apply andb_true_iff in Hd as [Hc _].
  unfold parseInt10, trimStart. cbn [dropWhile].
  rewrite (digit_not_white _ Hc).
  pose proof (digit_range _ Hc) as R.
  destruct (N.eqb_spec c 45); [lia|].
  destruct (N.eqb_spec c 43); [lia|].
  now rewrite (takeWhile_id _ _ Hall).
Qed.

Lemma to_double_not_NaN n : isNaN (to_double n) = false.
Proof.
  unfold to_double. destruct (n <? 2 ^ 53)%Z; [reflexivity|].
  cbv zeta. now destruct (2 ^ 1024 <=? _)%Z.
Qed.

Lemma decimal_nonneg ds : (0 <= decimal ds)%Z.
Proof.
  unfold decimal.
  assert (G : forall acc, (0 <= acc)%Z ->
            (0 <= fold_left (fun a c => (10 * a + digit_value c)%Z) ds acc)%Z).
  { induction ds as [|c ds IH]; intros acc Ha; cbn [fold_left]; [exact Ha|].
    apply IH. unfold digit_value.
    pose proof (N2Z.is_nonneg (c - 48)). lia. }
  apply G. lia.
Qed.

Lemma to_double_nonneg n :
  (0 <= n)%Z ->
  to_double n = PosInf \/ exists z, to_double n = Fin z /\ (0 <= z)%Z.
Proof.
  intros Hn. unfold to_double. destruct (n <? 2 ^ 53)%Z; [right; eauto|].
  cbv zeta.
  destruct (2 ^ 1024 <=? _)%Z; [now left|].
  right. eexists. split; [reflexivity|].
  apply Z.shiftl_nonneg.
  assert (0 <= Z.shiftr n (Z.log2 n - 52))%Z by now apply Z.shiftr_nonneg.
  destruct (_ || _)%bool; lia.
Qed.

(* ================================================================== *)
(** ** [trim] and the inventory items *)
(* ================================================================== *)

Lemma dropWhile_stable (p : char -> bool) s :
  match s with [] => True | c :: _ => p c = false end -> dropWhile p s = s.
Proof. destruct s as [|c s]; simpl; [reflexivity|]. now intros ->. Qed.

Lemma trim_idem s : trim (trim s) = trim s.
Proof.
  unfold trim, trimEnd, trimStart.
  set (t := dropWhile is_white s).
  set (dw := dropWhile is_white (rev t)).
  assert (E : dropWhile is_white (rev dw) = rev dw).
  { apply dropWhile_stable.
    pose proof (take_drop_while is_white (rev t)) as Ht. fold dw in Ht.
    apply (f_equal (@rev char)) in Ht.
    rewrite rev_app_distr, rev_involutive in Ht.
    pose proof (dropWhile_head is_white s) as Hh. fold t in Hh.
    destruct (rev dw) as [|c x]; [exact I|].
    rewrite <- Ht in Hh. exact Hh. }
  rewrite E, rev_involutive.
  unfold dw at 1. rewrite dropWhile_stable; [reflexivity|].
  apply dropWhile_head.
Qed.

Lemma inventory_items_spec inv :
  inventory_items inv = filter truthy (map trim (split 44%N inv)).
Proof. unfold inventory_items. now destruct inv. Qed.

Lemma inventory_items_ok inv : Forall item_ok (inventory_items inv).
Proof.
  rewrite inventory_items_spec. apply Forall_forall. intros it H.
  apply filter_In in H as [H Ht]. apply in_map_iff in H as (x & <- & _).
  split; [|apply trim_idem].
  destruct (trim x); [discriminate|discriminate].
Qed.

(* ================================================================== *)
(** ** [parseAndUpdateState] *)
(* ================================================================== *)

Lemma parse_without_marker s g :
  ~ has_marker s -> parseAndUpdateState s g = (trim s, g).
Proof.
  intros H. apply status_match_None in H.
  unfold parseAndUpdateState, replace_empty. now rewrite H.
Qed.

Lemma parse_with_marker pre d inv post g :
  d <> [] -> forallb is_digit d = true ->
  first_marker_at pre (HEALTH ++ d ++ INVENTORY ++ inv ++ FINISH ++ post) ->
  first_at FINISH inv post ->
  parseAndUpdateState
    (pre ++ HEALTH ++ d ++ INVENTORY ++ inv ++ FINISH ++ post) g
  = (trim (pre ++ post),
     {| playerHealth := to_double (decimal d);
        playerInventory := inventory_items inv |}).
Proof.
  intros Hne Hd Hs Hf. unfold parseAndUpdateState, replace_empty.
  rewrite (status_match_marker _ _ _ _ Hne Hd Hs Hf).
  rewrite firstn_length_app.
  change (group 1 [(2, inv); (1, d)]) with d.
  change (group 2 [(2, inv); (1, d)]) with inv.
  rewrite (parseInt10_digits _ Hne Hd), to_double_not_NaN. reflexivity.
Qed.

(** Whatever the text, the state afterwards is the old one or a freshly
    parsed one. *)
Lemma parse_state_cases s g :
  snd (parseAndUpdateState s g) = g
  \/ exists d inv, d <> [] /\ forallb is_digit d = true
       /\ snd (parseAndUpdateState s g)
          = {| playerHealth := to_double (decimal d);
               playerInventory := inventory_items inv |}.
Proof.
  unfold parseAndUpdateState. cbn [snd].
  destruct (regex_match statusRegex s) as [[[i rest] caps]|] eqn:E;
    [|now left].
  right. apply search_Some in E as (pre & suf & -> & _ & Hm).
  rewrite match_here_status in Hm.
  destruct (scan_status suf) as [[[d inv] r]|] eqn:Es; [|discriminate].
  inversion Hm; subst.
  apply scan_status_Some in Es as (_ & Hne & Hd).
  exists d, inv. split; [exact Hne|]. split; [exact Hd|].
  change (group 1 [(2, inv); (1, d)]) with d.
  change (group 2 [(2, inv); (1, d)]) with inv.
  rewrite (parseInt10_digits _ Hne Hd), to_double_not_NaN. reflexivity.
Qed.

(* ================================================================== *)
(** ** The streaming loop *)
(* ================================================================== *)

Lemma update_nth_length n f l :
  List.length (update_nth n f l) = List.length l.
Proof.
  revert n; induction l as [|m l IH]; intros [|n]; simpl; auto.
Qed.

Lemma nth_error_update_nth n f l m :
  nth_error l n = Some m -> nth_error (update_nth n f l) n = Some (f m).
Proof.
  revert n; induction l as [|x l IH]; intros [|n]; simpl; try discriminate.
  - now intros [= ->].
  - apply IH.
Qed.

Lemma shown_set_nodeValue el t p :
  el < List.length (gameOutput p) ->
  shown el (set_nodeValue el t p) = Some t.
Proof.
  intros H. unfold shown, set_nodeValue. cbn [gameOutput].
  destruct (nth_error (gameOutput p) el) as [m|] eqn:E.
  - now rewrite (nth_error_update_nth _ _ _ _ E).
  - apply nth_error_None in E. lia.
Qed.

Lemma stream_loop_length el rt chunks p :
  List.length (stream_loop el rt chunks p) = List.length chunks.
Proof.
  revert rt p; induction chunks as [|c cs IH]; intros rt p; simpl; auto.
Qed.

(** The loop touches nothing but the text node of its paragraph. *)
Lemma stream_loop_In el rt chunks p rt' p' :
  In (rt', p') (stream_loop el rt chunks p) ->
  state p' = state p /\ formDisabled p' = formDisabled p
  /\ promptValue p' = promptValue p.
Proof.
  revert rt p; induction chunks as [|c cs IH]; intros rt p; simpl.
  - contradiction.
  - intros [H|H].
    + inversion H; subst. auto.
    + apply IH in H. exact H.
Qed.

(** After chunk number [n] the paragraph shows the streaming display of
    everything received so far. *)
Lemma stream_loop_nth el rt chunks p n :
  el < List.length (gameOutput p) -> n < List.length chunks ->
  exists p',
    nth_error (stream_loop el rt chunks p) n
    = Some (rt ++ List.concat (firstn (S n) chunks), p')
    /\ shown el p' = Some (stream_display (rt ++ List.concat (firstn (S n) chunks))).
Proof.
  revert rt p n; induction chunks as [|c cs IH]; intros rt p n Hel Hn;
    [simpl in Hn; lia|].
  destruct n as [|n].
  - cbn [stream_loop nth_error firstn List.concat]. rewrite app_nil_r.
    eexists. split; [reflexivity|]. now apply shown_set_nodeValue.
  - cbn [stream_loop nth_error].
    destruct (IH (rt ++ c) (set_nodeValue el (stream_display (rt ++ c)) p) n)
      as (p' & H1 & H2).
    + cbn [set_nodeValue gameOutput]. now rewrite update_nth_length.
    + simpl in Hn. lia.
    + exists p'. cbn [firstn List.concat] in *.
      rewrite <- app_assoc in H1, H2. auto.
Qed.

Lemma last_cons {X} (x : X) l d : last (x :: l) d = last l x.
Proof.
  revert x d; induction l as [|y l IH]; intros x d; [reflexivity|].
  change (last (x :: y :: l) d) with (last (y :: l) d).
  rewrite (IH y d). symmetry. apply IH.
Qed.

Lemma last_map_cons {X Y} (f : X -> Y) l x0 d :
  last (f x0 :: map f l) d = f (last l x0).
Proof.
  rewrite last_cons. revert x0; induction l as [|y l IH]; intros x0;
    [reflexivity|].
  cbn [map]. rewrite !last_cons. apply IH.
Qed.

(** When the loop is over: all the chunks are accumulated, and the
    paragraph shows their streaming display (or is still empty when no
    chunk came). *)
Lemma stream_loop_last el rt chunks p :
  el < List.length (gameOutput p) ->
  exists p',
    last (stream_loop el rt chunks p) (rt, p) = (rt ++ List.concat chunks, p')
    /\ state p' = state p /\ formDisabled p' = formDisabled p
    /\ List.length (gameOutput p') = List.length (gameOutput p)
    /\ (chunks = [] -> p' = p)
    /\ (chunks <> [] -> shown el p' = Some (stream_display (rt ++ List.concat chunks))).
Proof.
  revert rt p; induction chunks as [|c cs IH]; intros rt p Hel.
  - exists p. cbn. rewrite app_nil_r. repeat split; auto. congruence.
  - cbn [stream_loop]. rewrite last_cons.
    set (p1 := set_nodeValue el (stream_display (rt ++ c)) p).
    assert (Hlen : List.length (gameOutput p1) = List.length (gameOutput p)).
    { unfold p1. cbn [set_nodeValue gameOutput]. apply update_nth_length. }
    destruct (IH (rt ++ c) p1) as (p' & H1 & H2 & H3 & Hl & H4 & H5).
    { now rewrite Hlen. }
    exists p'. cbn [List.concat]. rewrite app_assoc.
    repeat split; auto; try discriminate; try congruence.
    intros _. destruct cs as [|c' cs].
    + rewrite (H4 eq_refl). cbn [List.concat]. rewrite app_nil_r.
      unfold p1. now apply shown_set_nodeValue.
    + apply H5. discriminate.
Qed.

(* ================================================================== *)
(** ** Deciding first and last occurrences *)
(* ================================================================== *)

Lemma find_first_least pat s a b :
  find_first pat s = Some (a, b) ->
  forall a' b', s = a' ++ pat ++ b' -> List.length a <= List.length a'.
Proof.
  revert a; induction s as [|c s IH]; intros a; simpl.
  - destruct (strip_prefix pat []); [|discriminate].
    intros [= <- <-] a' b' _. simpl. lia.
  - destruct (strip_prefix pat (c :: s)) as [r|] eqn:E.
    + intros [= <- <-] a' b' _. simpl. lia.
    + destruct (find_first pat s) as [[a0 b0]|]; [|discriminate].
      intros [= <- <-] a' b' H. destruct a' as [|c' a']; simpl in H.
      * exfalso. now apply (strip_prefix_None _ _ E b').
      * inversion H; subst. simpl. apply le_n_S. now apply (IH a0 eq_refl a' b').
Qed.

Lemma find_last_greatest pat s a b :
  find_last pat s = Some (a, b) ->
  forall a' b', s = a' ++ pat ++ b' -> List.length a' <= List.length a.
Proof.
  revert a; induction s as [|c s IH]; intros a; simpl.
  - intros _ a' b' H. destruct a'; [simpl; lia | discriminate].
  - destruct (find_last pat s) as [[a0 b0]|] eqn:E.
    + intros [= <- <-] a' b' H. destruct a' as [|c' a']; simpl in *; [lia|].
      inversion H; subst. apply le_n_S. now apply (IH a0 eq_refl a' b').
    + intros _ a' b' H. destruct a' as [|c' a']; simpl in *; [lia|].
      inversion H; subst. exfalso.
      apply (find_last_None _ _ E). now exists a', b'.
Qed.

Lemma first_at_dec pat a b :
  find_first pat (a ++ pat ++ b) = Some (a, b) -> first_at pat a b.
Proof. intros H a' b'. now apply find_first_least with (b := b). Qed.

Lemma last_at_dec pat a b :
  find_last pat (a ++ pat ++ b) = Some (a, b) -> last_at pat a b.
Proof. intros H a' b'. now apply find_last_greatest with (b := b). Qed.

Lemma no_occurrence_dec pat s : find_first pat s = None -> ~ occurs pat s.
Proof. apply find_first_None. Qed.

Lemma marker_has_START s : has_marker s -> occurs START s.
Proof.
  intros (pre & d & inv & post & -> & _).
  exists pre, (lit "HEALTH:" ++ d ++ INVENTORY ++ inv ++ FINISH ++ post).
  now rewrite HEALTH_START, <- app_assoc.
Qed.

(* ================================================================== *)
(** ** [trim] around a sentinel *)
(* ================================================================== *)

Lemma dropWhile_app_stop (p : char -> bool) a x b :
  p x = false -> dropWhile p (a ++ x :: b) = dropWhile p a ++ x :: b.
Proof.
  intros Hx. induction a as [|c a IH]; simpl; [now rewrite Hx|].
  now destruct (p c).
Qed.

(** Trimming never cuts into a start sentinel. *)
Lemma trim_around_START a b :
  trim (a ++ START ++ b) = trimStart a ++ START ++ trimEnd b.
Proof.
  unfold trim, trimEnd, trimStart.
  change START with (91%N :: lit "STATUS" ++ [93%N]) at 1.
  cbn [app]. rewrite dropWhile_app_stop by reflexivity.
  rewrite <- !app_assoc. cbn [app].
  change (dropWhile is_white a ++ 91%N :: lit "STATUS" ++ 93%N :: b)
    with (dropWhile is_white a ++ (91%N :: lit "STATUS") ++ 93%N :: b).
  rewrite app_assoc, rev_app_distr. cbn [rev]. rewrite <- app_assoc.
  cbn [app]. rewrite dropWhile_app_stop by reflexivity.
  rewrite rev_app_distr. cbn [rev]. rewrite rev_involutive.
  rewrite <- !app_assoc. reflexivity.
Qed.

(* ================================================================== *)
(** ** The pages of one turn *)
(* ================================================================== *)

Lemma nth_error_update_nth_same n f l :
  nth_error (update_nth n f l) n = option_map f (nth_error l n).
Proof.
  revert n; induction l as [|x l IH]; intros [|n]; simpl; auto.
Qed.

Lemma shown_remove_cursor el p : shown el (remove_cursor el p) = shown el p.
Proof.
  unfold shown, remove_cursor. cbn [gameOutput].
  rewrite nth_error_update_nth_same.
  now destruct (nth_error (gameOutput p) el).
Qed.

Lemma created_paragraph p :
  let '(el, p1) := createStreamingMessage p in
  el = List.length (gameOutput p)
  /\ el < List.length (gameOutput p1)
  /\ shown el p1 = Some []
  /\ state p1 = state p /\ formDisabled p1 = formDisabled p.
Proof.
  unfold createStreamingMessage, shown. cbn [gameOutput state formDisabled].
  rewrite length_app, nth_error_app2, Nat.sub_diag by lia.
  simpl. repeat split; auto; lia.
Qed.

(** The page after chunk number [n] of a turn. *)
Lemma receive_nth chunks ending p n :
  n < List.length chunks ->
  exists p',
    nth_error (receive (Stream chunks ending) p) (2 + n) = Some p'
    /\ shown (List.length (gameOutput p)) p'
       = Some (stream_display (List.concat (firstn (S n) chunks))).
Proof.
  intros Hn. unfold receive.
  pose proof (created_paragraph p) as Hc.
  destruct (createStreamingMessage p) as [el p1].
  destruct Hc as (-> & Hel & _).
  destruct (stream_loop_nth (List.length (gameOutput p)) [] chunks p1 n Hel Hn)
    as (p' & H1 & H2).
  destruct (last _ _) as [rt p2]. exists p'. split; [|exact H2].
  cbn [app Nat.add nth_error].
  rewrite nth_error_app1 by now rewrite length_map, stream_loop_length.
  now rewrite nth_error_map, H1.
Qed.

(** A turn whose stream ends: every page but the last keeps the game
    state; the last one is written by the final statements. *)
Lemma receive_completed chunks p :
  exists mids fin,
    receive (Stream chunks EndOfStream) p = mids ++ [fin]
    /\ (forall q, In q mids -> state q = state p)
    /\ List.length mids = 2 + List.length chunks
    /\ state fin = snd (parseAndUpdateState (List.concat chunks) (state p))
    /\ shown (List.length (gameOutput p)) fin
       = Some (fst (parseAndUpdateState (List.concat chunks) (state p)))
    /\ formDisabled fin = false.
Proof.
  unfold receive.
  pose proof (created_paragraph p) as Hc.
  destruct (createStreamingMessage p) as [el p1].
  destruct Hc as (-> & Hel & _ & Hs1 & _).
  set (el := List.length (gameOutput p)) in *.
  destruct (stream_loop_last el [] chunks p1 Hel)
    as (p2 & Hl & Hs2 & _ & Hlen & _ & _).
  pose proof (stream_loop_In el [] chunks p1) as Hin.
  rewrite <- Hlen in Hel. cbn [app] in Hl.
  exists (p :: p1 :: map snd (stream_loop el [] chunks p1)).
  exists (finalize el (List.concat chunks) p2).
  split; [now rewrite Hl|].
  unfold finalize. rewrite Hs2, Hs1.
  destruct (parseAndUpdateState (List.concat chunks) (state p)) as [fn g].
  split; [|split; [|split; [|split]]].
  - intros q [<-|[<-|Hq]]; auto.
    apply in_map_iff in Hq as ([rt' q'] & <- & Hq).
    apply Hin in Hq as (Hq & _). cbn [snd]. congruence.
  - cbn [List.length]. now rewrite length_map, stream_loop_length.
  - reflexivity.
  - cbn [fst]. unfold setFormDisabled, shown. cbn [gameOutput].
    fold (shown el (remove_cursor el (set_nodeValue el fn (set_state g p2)))).
    rewrite shown_remove_cursor. now apply shown_set_nodeValue.
  - reflexivity.
Qed.

(** A turn whose stream fails, or whose request is rejected: no page
    changes the game state or the disabled flag. *)
Lemma receive_failed_In r p q :
  r = Rejected \/ (exists chunks, r = Stream chunks StreamError) ->
  In q (receive r p) ->
  state q = state p /\ formDisabled q = formDisabled p.
Proof.
  intros [->|[chunks ->]]; unfold receive.
  - intros [<-|[]]. auto.
  - pose proof (created_paragraph p) as Hc.
    destruct (createStreamingMessage p) as [el p1].
    destruct Hc as (_ & _ & _ & Hs1 & Hf1).
    destruct (last _ _) as [rt p2]. rewrite app_nil_r. cbn [app].
    intros [<-|[<-|Hq]]; auto.
    apply in_map_iff in Hq as ([rt' q'] & <- & Hq).
    apply stream_loop_In in Hq as (Hq & Hq' & _). cbn [snd]. split; congruence.
Qed.

(** The last page of a turn whose stream fails still shows the
    streaming display of what was received. *)
Lemma receive_failed_last chunks p d :
  shown (List.length (gameOutput p))
        (last (receive (Stream chunks StreamError) p) d)
  = Some (stream_display (List.concat chunks)).
Proof.
  unfold receive.
  pose proof (created_paragraph p) as Hc.
  destruct (createStreamingMessage p) as [el p1].
  destruct Hc as (-> & Hel & Hsh & _).
  set (el := List.length (gameOutput p)) in *.
  destruct (stream_loop_last el [] chunks p1 Hel)
    as (p2 & Hl & _ & _ & _ & H0 & H1).
  rewrite Hl, app_nil_r. cbn [app].
  rewrite last_cons.
  change p1 with (snd (@pair jsstring page [] p1)) at 1.
  rewrite last_map_cons, Hl. cbn [snd].
  destruct chunks as [|c cs].
  - now rewrite (H0 eq_refl).
  - apply H1. discriminate.
Qed.

Lemma receive_In r p q :
  In q (receive r p) ->
  state q = state p
  \/ exists rt, state q = snd (parseAndUpdateState rt (state p)).
Proof.
  destruct r as [|chunks [|]].
  - intros H. left. now apply (receive_failed_In Rejected p q); auto.
  - destruct (receive_completed chunks p)
      as (mids & fin & -> & Hm & _ & Hf & _).
    intros H. apply in_app_or in H as [H|[<-|[]]]; [left; auto|].
    right. eauto.
  - intros H. left.
    apply (receive_failed_In (Stream chunks StreamError) p q); eauto.
Qed.

Lemma dropWhile_In (p : char -> bool) s c : In c (dropWhile p s) -> In c s.
Proof.
  induction s as [|x s IH]; simpl; [auto|].
  destruct (p x); [intros H; right; auto | auto].
Qed.

Lemma trim_In s c : In c (trim s) -> In c s.
Proof.
  unfold trim, trimEnd, trimStart. intros H.
  apply in_rev, dropWhile_In, in_rev in H. now apply dropWhile_In in H.
Qed.

Lemma split_no_sep sep s : Forall (fun it => ~ In sep it) (split sep s).
Proof.
  induction s as [|c s IH]; simpl.
  - constructor; auto.
  - destruct (N.eqb_spec c sep).
    + constructor; auto.
    + destruct (split sep s) as [|h t]; inversion IH; subst;
        constructor; auto; simpl; intuition congruence.
Qed.

Lemma inventory_items_no_comma inv :
  Forall (fun it => ~ In 44%N it) (inventory_items inv).
Proof.
  rewrite inventory_items_spec. apply Forall_forall. intros it H.
  apply filter_In in H as [H _]. apply in_map_iff in H as (x & <- & Hx).
  intros Hc. apply trim_In in Hc.
  pose proof (split_no_sep 44%N inv) as F.
  rewrite Forall_forall in F. now apply (F x Hx).
Qed.

Lemma app_same_length (a b x y : jsstring) :
  a ++ x = b ++ y -> List.length a = List.length b -> a = b /\ x = y.
Proof.
  revert b; induction a as [|c a IH]; intros [|d b] E L; simpl in *;
    try discriminate; auto.
  inversion E; subst. destruct (IH b H1) as [-> ->]; auto.
Qed.

(* ================================================================== *)
(** ** The claims *)
(* ================================================================== *)

(** C1, as stated, fails: with the reply cut after
    ["A shadow looms.\n[STATUS]HEALTH:5"], the page after the second
    chunk shows the whole text, start sentinel and partial marker
    included, and not the text before the start sentinel. *)
Lemma C1_partial_marker_is_shown :
  exists p',
    nth_error
      (receive (Stream [lit "A shadow looms."; nl ++ lit "[STATUS]HEALTH:5"]
                  EndOfStream) initial_page) 3 = Some p'
    /\ shown 0 p' = Some (lit "A shadow looms." ++ nl ++ lit "[STATUS]HEALTH:5")
    /\ shown 0 p' <> Some (trim (lit "A shadow looms." ++ nl)).
Proof.
  eexists. split; [vm_compute; reflexivity|].
  split; [vm_compute; reflexivity|]. vm_compute. discriminate.
Qed.

(** C1, amended: the page published after chunk number [n] shows the
    text accumulated so far with the span from its first start sentinel
    through its last end sentinel cut out, trimmed; as long as no end
    sentinel has followed a start sentinel it shows the whole
    accumulated text trimmed, start sentinel and partial marker
    included. *)
Theorem C1_mid_stream_display chunks ending p n :
  n < List.length chunks ->
  exists p',
    nth_error (receive (Stream chunks ending) p) (2 + n) = Some p'
    /\ (forall pre mid post,
          List.concat (firstn (S n) chunks)
          = pre ++ START ++ mid ++ FINISH ++ post ->
          first_at START pre (mid ++ FINISH ++ post) ->
          last_at FINISH mid post ->
          shown (List.length (gameOutput p)) p' = Some (trim (pre ++ post)))
    /\ (~ has_span (List.concat (firstn (S n) chunks)) ->
        shown (List.length (gameOutput p)) p'
        = Some (trim (List.concat (firstn (S n) chunks))))
    /\ (forall pre tail,
          List.concat (firstn (S n) chunks) = pre ++ START ++ tail ->
          ~ has_span (pre ++ START ++ tail) ->
          shown (List.length (gameOutput p)) p'
          = Some (trimStart pre ++ START ++ trimEnd tail)).
Proof.
  intros Hn. destruct (receive_nth chunks ending p n Hn) as (p' & H1 & H2).
  exists p'. split; [exact H1|]. split; [|split].
  - intros pre mid post E Hf Hl.
    now rewrite H2, E, stream_display_span.
  - intros H. now rewrite H2, stream_display_whole.
  - intros pre tail E H.
    now rewrite H2, E, stream_display_whole, trim_around_START.
Qed.

Lemma C1_mid_stream_display_witness :
  exists p',
    nth_error
      (receive (Stream [lit "Hi." ++ nl ++ lit "[STATUS]HEALTH:9,INV";
                        lit "ENTORY:[/STATUS]"] EndOfStream)
         initial_page) 3 = Some p'
    /\ shown 0 p' = Some (lit "Hi.").
Proof.
  destruct (C1_mid_stream_display
              [lit "Hi." ++ nl ++ lit "[STATUS]HEALTH:9,INV";
               lit "ENTORY:[/STATUS]"] EndOfStream initial_page 1)
    as (p' & H & Hspan & _ & _); [simpl; lia|].
  exists p'. split; [exact H|].
  apply (Hspan (lit "Hi." ++ nl) (lit "HEALTH:9,INVENTORY:") []).
  - reflexivity.
  - apply first_at_dec. vm_compute. reflexivity.
  - apply last_at_dec. vm_compute. reflexivity.
Defined.

(** C2: the well-formed round trip of the specification, whatever the
    game state was before. *)
Theorem C2_well_formed_round_trip g :
  parseAndUpdateState
    (lit "You enter a cave." ++ nl
       ++ lit "[STATUS]HEALTH:75,INVENTORY:torch[/STATUS]") g
  = (lit "You enter a cave.",
     {| playerHealth := Fin 75; playerInventory := [lit "torch"] |}).
Proof. vm_compute. reflexivity. Qed.

(** C3, as stated, fails: for the truncated reply
    ["A shadow looms.\n[STATUS]HEALTH:5"] the final narrative is not the
    text before the start sentinel; the start sentinel and the partial
    marker are still in it. *)
Lemma C3_truncated_marker_stays :
  ~ has_marker (lit "A shadow looms." ++ nl ++ lit "[STATUS]HEALTH:5")
  /\ fst (parseAndUpdateState
            (lit "A shadow looms." ++ nl ++ lit "[STATUS]HEALTH:5")
            initial_game)
     = lit "A shadow looms." ++ nl ++ lit "[STATUS]HEALTH:5"
  /\ fst (parseAndUpdateState
            (lit "A shadow looms." ++ nl ++ lit "[STATUS]HEALTH:5")
            initial_game)
     <> trim (lit "A shadow looms." ++ nl).
Proof.
  split; [apply status_match_None; vm_compute; reflexivity|].
  split; [vm_compute; reflexivity|]. vm_compute. discriminate.
Qed.

(** C3, amended: when the text holds a start sentinel but no
    well-formed marker, the final narrative is the whole text trimmed
    (the start sentinel and what follows it stay in it) and the game
    state is unchanged. *)
Theorem C3_unfinished_marker pre tail g :
  ~ has_marker (pre ++ START ++ tail) ->
  parseAndUpdateState (pre ++ START ++ tail) g
  = (trimStart pre ++ START ++ trimEnd tail, g).
Proof.
  intros H. rewrite <- trim_around_START. now apply parse_without_marker.
Qed.

Lemma C3_unfinished_marker_witness :
  parseAndUpdateState
    ((lit "A shadow looms." ++ nl) ++ START ++ lit "HEALTH:5") initial_game
  = (lit "A shadow looms." ++ nl ++ lit "[STATUS]HEALTH:5", initial_game).
Proof.
  apply (C3_unfinished_marker (lit "A shadow looms." ++ nl) (lit "HEALTH:5")).
  apply status_match_None. vm_compute. reflexivity.
Defined.

(** C4: in a turn whose stream ends, every page before the last one
    (on entry, after the paragraph is created, after each chunk) has the
    game state the turn started with; only the last page, written by the
    statements after the loop, can differ, and its game state is the one
    [parseAndUpdateState] leaves for the whole reply. *)
Theorem C4_single_commit chunks p :
  (exists mids fin,
      startGame (Stream chunks EndOfStream) p = mids ++ [fin]
      /\ (forall q, In q mids -> state q = state p)
      /\ List.length mids = 2 + List.length chunks
      /\ state fin = snd (parseAndUpdateState (List.concat chunks) (state p)))
  /\ (exists mids fin,
         submit (Stream chunks EndOfStream) p = mids ++ [fin]
         /\ (forall q, In q mids -> state q = state p)
         /\ if truthy (trim (promptValue p))
            then List.length mids = 2 + List.length chunks
                 /\ state fin
                    = snd (parseAndUpdateState (List.concat chunks) (state p))
            else fin = p).
Proof.
  split.
  - unfold startGame.
    destruct (receive_completed chunks (setFormDisabled true p))
      as (mids & fin & E & Hm & Hl & Hs & _).
    exists mids, fin. auto.
  - unfold submit. destruct (truthy (trim (promptValue p))).
    + match goal with
      | |- context [receive _ ?p0] =>
          destruct (receive_completed chunks p0)
            as (mids & fin & E & Hm & Hl & Hs & _)
      end.
      exists mids, fin. auto.
    + exists [], p. simpl. intuition.
Qed.

(** C5, as stated, fails: after a stream error the form is still
    disabled on the last page of the turn, so the controller is not back
    to idle. *)
Lemma C5_form_stays_disabled :
  formDisabled
    (last (submit (Stream [lit "A shadow looms."; nl ++ lit "[STATUS]HEALTH:5"]
                     StreamError)
             (type_prompt (lit "look") initial_page)) initial_page)
  = true.
Proof. vm_compute. reflexivity. Qed.

(** C5, amended: when the stream fails, the paragraph keeps showing the
    streaming display of what was received and no page of the turn
    changes the game state; nothing after the failure runs, so the form
    is disabled on every page of the turn, the last one included. *)
Theorem C5_failed_turn chunks p d :
  truthy (trim (promptValue p)) = true ->
  (forall q, In q (submit (Stream chunks StreamError) p) ->
             state q = state p /\ formDisabled q = true)
  /\ shown (S (List.length (gameOutput p)))
           (last (submit (Stream chunks StreamError) p) d)
     = Some (stream_display (List.concat chunks)).
Proof.
  intros Ht. unfold submit. rewrite Ht. split.
  - intros q Hq.
    apply (receive_failed_In (Stream chunks StreamError)) in Hq; [|eauto].
    exact Hq.
  - match goal with
    | |- shown ?n (last (receive _ ?p0) _) = _ =>
        replace n with (List.length (gameOutput p0));
          [apply receive_failed_last|]
    end.
    cbn [gameOutput appendMessage setFormDisabled].
    rewrite length_app. cbn [List.length]. apply Nat.add_1_r.
Qed.

Lemma C5_failed_turn_witness :
  (forall q,
      In q (submit (Stream [lit "A shadow looms."; nl ++ lit "[STATUS]HEALTH:5"]
                      StreamError)
              (type_prompt (lit "look") initial_page)) ->
      state q = initial_game /\ formDisabled q = true)
  /\ shown 1
       (last (submit (Stream [lit "A shadow looms.";
                              nl ++ lit "[STATUS]HEALTH:5"] StreamError)
                (type_prompt (lit "look") initial_page)) initial_page)
     = Some (lit "A shadow looms." ++ nl ++ lit "[STATUS]HEALTH:5").
Proof.
  apply (C5_failed_turn
           [lit "A shadow looms."; nl ++ lit "[STATUS]HEALTH:5"]
           (type_prompt (lit "look") initial_page) initial_page).
  vm_compute. reflexivity.
Defined.

(** C7: a text without any start sentinel comes back trimmed, and the
    game state is unchanged. *)
Theorem C7_no_start_sentinel s g :
  ~ occurs START s -> parseAndUpdateState s g = (trim s, g).
Proof.
  intros H. apply parse_without_marker. intros Hm.
  now apply H, marker_has_START.
Qed.

Lemma C7_no_start_sentinel_witness :
  parseAndUpdateState (lit "  The door creaks.  " ++ nl) initial_game
  = (lit "The door creaks.", initial_game).
Proof.
  apply (C7_no_start_sentinel (lit "  The door creaks.  " ++ nl) initial_game).
  apply no_occurrence_dec. vm_compute. reflexivity.
Defined.

(** C8, as stated, fails: with the health field ["abc"] the inventory
    field ["torch"] is not committed; the whole marker is ignored. *)
Lemma C8_inventory_not_committed :
  snd (parseAndUpdateState
         (lit "[STATUS]HEALTH:abc,INVENTORY:torch[/STATUS]") initial_game)
  = initial_game
  /\ playerInventory
       (snd (parseAndUpdateState
               (lit "[STATUS]HEALTH:abc,INVENTORY:torch[/STATUS]")
               initial_game))
     <> [lit "torch"].
Proof. split; [vm_compute; reflexivity | vm_compute; discriminate]. Qed.

(** C9, as stated, fails: a health field of 310 digits is beyond the
    range of a double, [parseInt] gives [Infinity], and the game state
    that is reached holds a health that is not an integer. *)
Lemma C9_health_overflows :
  exists p,
    reachable p /\ playerHealth (state p) = PosInf
    /\ ~ nonneg_integer (playerHealth (state p)).
Proof.
  exists (last (startGame long_health_reply initial_page) initial_page).
  split; [|split].
  - apply reach_start with (r := long_health_reply).
    vm_compute. do 3 right. left. reflexivity.
  - vm_compute. reflexivity.
  - intros (z & H & _). vm_compute in H. discriminate.
Qed.

(** C9, amended: the game starts at health 100 with an empty inventory;
    on every page a session can reach, the health is a non-negative
    integer or [Infinity], and every inventory entry is a non-empty
    trimmed string; a text without a well-formed marker leaves the game
    state as it was. *)
Theorem C9_reachable_state_ok :
  initial_game = {| playerHealth := Fin 100; playerInventory := [] |}
  /\ (forall p, reachable p -> state_ok (state p))
  /\ (forall s g, ~ has_marker s -> snd (parseAndUpdateState s g) = g).
Proof.
  split; [reflexivity|]. split.
  - assert (Hinit : state_ok initial_game).
    { split; [left; exists 100%Z; split; [reflexivity|lia] | constructor]. }
    assert (Hstep : forall r p q,
               state_ok (state p) -> In q (receive r p) -> state_ok (state q)).
    { intros r p q Hp Hq. apply receive_In in Hq as [->|[rt ->]]; [exact Hp|].
      destruct (parse_state_cases rt (state p)) as [->|(d & inv & _ & _ & ->)];
        [exact Hp|].
      split; cbn [playerHealth playerInventory].
      - destruct (to_double_nonneg (decimal d) (decimal_nonneg d))
          as [->|(z & -> & Hz)]; [now right|].
        left. now exists z.
      - apply inventory_items_ok. }
    intros p H. induction H as [r p H|v p H IH Hf|r p p' H IH Hf Hin].
    + unfold startGame in H.
      now apply (Hstep r (setFormDisabled true initial_page) p Hinit) in H.
    + exact IH.
    + unfold submit in Hin. destruct (truthy (trim (promptValue p))).
      * revert Hin. apply Hstep. exact IH.
      * destruct Hin as [<-|[]]. exact IH.
  - intros s g H. now rewrite parse_without_marker.
Qed.

Lemma C9_reachable_state_ok_witness :
  state_ok
    (state
       (last (startGame sample_reply initial_page) initial_page)).
Proof.
  apply (proj1 (proj2 C9_reachable_state_ok)).
  apply reach_start with (r := sample_reply).
  vm_compute. do 4 right. left. reflexivity.
Defined.

(** C10: whenever the final pattern matches, its first capture is a
    non-empty run of digits, [parseInt] of it is not NaN, and the state
    left holds the parsed health and the parsed inventory: both fields
    are committed and the previous health is never retained. *)
Theorem C10_health_capture_parses s g i rest caps :
  regex_match statusRegex s = Some (i, rest, caps) ->
  group 1 caps <> [] /\ forallb is_digit (group 1 caps) = true
  /\ isNaN (parseInt10 (group 1 caps)) = false
  /\ snd (parseAndUpdateState s g)
     = {| playerHealth := parseInt10 (group 1 caps);
          playerInventory := inventory_items (group 2 caps) |}.
Proof.
  intros E. unfold parseAndUpdateState. rewrite E. cbn [snd].
  apply search_Some in E as (pre & suf & -> & _ & Hm).
  rewrite match_here_status in Hm.
  destruct (scan_status suf) as [[[d inv] r]|] eqn:Es; [|discriminate].
  inversion Hm; subst.
  apply scan_status_Some in Es as (_ & Hne & Hd).
  change (group 1 [(2, inv); (1, d)]) with d.
  change (group 2 [(2, inv); (1, d)]) with inv.
  rewrite (parseInt10_digits _ Hne Hd), to_double_not_NaN. auto.
Qed.

Lemma C10_health_capture_parses_witness :
  snd (parseAndUpdateState
         (lit "Ouch. [STATUS]HEALTH:42,INVENTORY:rope, key[/STATUS]")
         initial_game)
  = {| playerHealth := Fin 42; playerInventory := [lit "rope"; lit "key"] |}.
Proof.
  apply (C10_health_capture_parses
           (lit "Ouch. [STATUS]HEALTH:42,INVENTORY:rope, key[/STATUS]")
           initial_game 6 [] [(2, lit "rope, key"); (1, lit "42")]).
  vm_compute. reflexivity.
Defined.

(* ================================================================== *)
(** ** Further facts on strings and on the leftmost match *)
(* ================================================================== *)

Lemma app_split_le (x y x' y' : jsstring) :
  x ++ y = x' ++ y' -> List.length x <= List.length x' ->
  exists u, x' = x ++ u /\ y = u ++ y'.
Proof.
  revert x'; induction x as [|c x IH]; intros x' E L.
  - exists x'. auto.
  - destruct x' as [|c' x']; [simpl in L; lia|].
    simpl in E. inversion E; subst.
    destruct (IH x' H1) as (u & -> & ->); [simpl in L; lia|].
    exists u. auto.
Qed.

Lemma dropWhile_length (p : char -> bool) s :
  List.length (dropWhile p s) <= List.length s.
Proof.
  induction s as [|c s IH]; simpl; [lia|]. destruct (p c); simpl; lia.
Qed.

(** [trim s] is a stretch of [s]. *)
Lemma trim_inside s : exists a b, s = a ++ trim s ++ b.
Proof.
  unfold trim, trimEnd, trimStart.
  set (t := dropWhile is_white s).
  exists (takeWhile is_white s), (rev (takeWhile is_white (rev t))).
  rewrite <- rev_app_distr, take_drop_while, rev_involutive.
  symmetry. apply take_drop_while.
Qed.

Lemma trim_length s : List.length (trim s) <= List.length s.
Proof.
  destruct (trim_inside s) as (a & b & E).
  rewrite E at 2. rewrite !length_app. lia.
Qed.

Lemma trim_no_outer_white s : no_outer_white (trim s).
Proof.
  split.
  - pose proof (trim_idem s) as E. pose proof (trim_length (trim s)) as L.
    destruct (trim s) as [|c u] eqn:Eu; [exact I|].
    destruct (is_white c) eqn:Ec; [|reflexivity]. exfalso.
    unfold trim at 1, trimEnd, trimStart in E. cbn [dropWhile] in E.
    rewrite Ec in E. apply (f_equal (@List.length char)) in E.
    rewrite length_rev in E.
    pose proof (dropWhile_length is_white (rev (dropWhile is_white u))) as L1.
    pose proof (dropWhile_length is_white u) as L2.
    rewrite length_rev in L1. simpl in E. lia.
  - unfold trim, trimEnd. rewrite rev_involutive. apply dropWhile_head.
Qed.

(** Trimming never cuts into a text that begins and ends with
    something else than white space. *)
Lemma trim_around a b m x y :
  is_white x = false -> is_white y = false ->
  trim (a ++ (x :: m ++ [y]) ++ b)
  = trimStart a ++ (x :: m ++ [y]) ++ trimEnd b.
Proof.
  intros Hx Hy. unfold trim, trimEnd, trimStart.
  cbn [app]. rewrite dropWhile_app_stop by exact Hx.
  replace (dropWhile is_white a ++ x :: (m ++ [y]) ++ b)
    with ((dropWhile is_white a ++ x :: m) ++ y :: b)
    by (rewrite <- !app_assoc; reflexivity).
  rewrite rev_app_distr. cbn [rev]. rewrite <- app_assoc. cbn [app].
  rewrite dropWhile_app_stop by exact Hy.
  rewrite rev_app_distr. cbn [rev]. rewrite rev_involutive.
  rewrite <- !app_assoc. reflexivity.
Qed.

(** A well-formed marker begins with ['['] and ends with [']']. *)
Lemma marker_ends d inv :
  HEALTH ++ d ++ INVENTORY ++ inv ++ FINISH
  = 91%N :: (lit "STATUS]HEALTH:" ++ d ++ INVENTORY ++ inv ++ lit "[/STATUS")
      ++ [93%N].
Proof.
  change HEALTH with (91%N :: lit "STATUS]HEALTH:").
  change FINISH with (lit "[/STATUS" ++ [93%N]).
  cbn [app]. rewrite <- !app_assoc. reflexivity.
Qed.

Lemma has_span_trim s : has_span (trim s) -> has_span s.
Proof.
  intros (p & m & q & E). destruct (trim_inside s) as (a & b & Es).
  exists (a ++ p), m, (q ++ b). rewrite Es, E.
  rewrite <- !app_assoc. reflexivity.
Qed.

(** No position before the leftmost match matches. *)
Lemma search_Some_first r i s j rest caps :
  search r i s = Some (j, rest, caps) ->
  exists pre suf,
    s = pre ++ suf /\ j = i + List.length pre
    /\ match_here r suf = Some (rest, caps)
    /\ (forall a b, pre = a ++ b -> b <> [] ->
                    match_here r (b ++ suf) = None).
Proof.
  revert i; induction s as [|c s IH]; intros i; cbn [search].
  - destruct (match_here r []) as [[r0 c0]|] eqn:E; [|discriminate].
    intros H; inversion H; subst. exists [], []. simpl.
    repeat split; auto. intros a b Hab Hb.
    destruct a, b; simpl in Hab; congruence.
  - destruct (match_here r (c :: s)) as [[r0 c0]|] eqn:E.
    + intros H; inversion H; subst. exists [], (c :: s). simpl.
      repeat split; auto. intros a b Hab Hb.
      destruct a, b; simpl in Hab; congruence.
    + intros H. destruct (IH _ H) as (pre & suf & -> & -> & Hm & Hmin).
      exists (c :: pre), suf. simpl.
      split; [reflexivity|]. split; [lia|]. split; [exact Hm|].
      intros a b Hab Hb. destruct a as [|c' a]; simpl in Hab.
      * subst b. exact E.
      * inversion Hab; subst. now apply (Hmin a b).
Qed.

(** What is left when the streaming pattern has cut its match out holds
    no span any more. *)
Lemma replace_stream_no_span s : ~ has_span (replace_empty streamRegex s).
Proof.
  unfold replace_empty.
  destruct (regex_match streamRegex s) as [[[i rest] caps]|] eqn:E;
    [|now apply stream_match_None].
  unfold regex_match in E.
  apply search_Some_first in E as (pre & suf & -> & -> & Hm & Hmin).
  simpl. rewrite firstn_length_app.
  rewrite match_here_stream in Hm.
  destruct (scan_stream suf) as [r0|] eqn:Es; [|discriminate].
  inversion Hm; subst r0 caps. clear Hm.
  unfold scan_stream in Es.
  destruct (strip_prefix START suf) as [s1|] eqn:E1; [|discriminate].
  destruct (find_last FINISH s1) as [[mid r1]|] eqn:E2; [|discriminate].
  inversion Es; subst r1. clear Es.
  apply strip_prefix_Some in E1. subst suf.
  pose proof (find_last_greatest _ _ _ _ E2) as Hlast.
  apply find_last_Some in E2. subst s1.
  intros (a & m & b & E).
  destruct (Nat.le_gt_cases (List.length a + 8) (List.length pre)) as [L|L].
  - (* the start sentinel lies inside [pre] *)
    assert (La : List.length (a ++ START) <= List.length pre)
      by (rewrite length_app; exact L).
    rewrite (app_assoc a START) in E. symmetry in E.
    destruct (app_split_le _ _ _ _ E La) as (u & Hp & _).
    assert (Hb : START ++ u <> []) by discriminate.
    pose proof (Hmin a (START ++ u)) as Hn.
    rewrite <- app_assoc in Hp. specialize (Hn Hp Hb).
    rewrite match_here_stream in Hn.
    rewrite <- app_assoc in Hn.
    replace (u ++ START ++ mid ++ FINISH ++ rest)
      with ((u ++ START ++ mid) ++ FINISH ++ rest) in Hn
      by (rewrite <- !app_assoc; reflexivity).
    pose proof (scan_stream_occurs (u ++ START ++ mid) rest) as Ho.
    destruct (scan_stream _); congruence.
  - (* the end sentinel lies inside [rest] *)
    assert (La : List.length pre <= List.length (a ++ START ++ m)).
    { rewrite !length_app.
      change (List.length START) with 8. lia. }
    replace (a ++ START ++ m ++ FINISH ++ b)
      with ((a ++ START ++ m) ++ FINISH ++ b) in E
      by (rewrite <- !app_assoc; reflexivity).
    destruct (app_split_le _ _ _ _ E La) as (u & _ & Hr).
    specialize (Hlast (mid ++ FINISH ++ u) b).
    rewrite Hr, <- !app_assoc in Hlast. specialize (Hlast eq_refl).
    rewrite !length_app in Hlast.
    change (List.length FINISH) with 9 in Hlast. lia.
Qed.

(* ================================================================== *)
(** ** Further properties of [parseAndUpdateState] and of the streaming
       display *)
(* ================================================================== *)

(** X1: for a text whose first well-formed marker has the health digits
    [d] and the inventory field [inv], the narrative returned is the
    text around that marker, trimmed; the health committed is the
    double nearest to the decimal value of [d], and the inventory
    committed is the items of [inv]; nothing of the previous state is
    kept. *)
Theorem X1_marker_parsed pre d inv post g :
  d <> [] -> forallb is_digit d = true ->
  first_marker_at pre (HEALTH ++ d ++ INVENTORY ++ inv ++ FINISH ++ post) ->
  first_at FINISH inv post ->
  parseAndUpdateState
    (pre ++ HEALTH ++ d ++ INVENTORY ++ inv ++ FINISH ++ post) g
  = (trim (pre ++ post),
     {| playerHealth := to_double (decimal d);
        playerInventory := filter truthy (map trim (split 44%N inv)) |}).
Proof.
  intros Hne Hd Hs Hf.
  rewrite (parse_with_marker _ _ _ _ g Hne Hd Hs Hf).
  now rewrite inventory_items_spec.
Qed.

Lemma X1_marker_parsed_witness :
  parseAndUpdateState
    (lit "You enter a cave." ++ nl
       ++ lit "[STATUS]HEALTH:075,INVENTORY: torch , ,rusty key[/STATUS]  ")
    {| playerHealth := Fin 3; playerInventory := [lit "rope"] |}
  = (lit "You enter a cave.",
     {| playerHealth := Fin 75;
        playerInventory := [lit "torch"; lit "rusty key"] |}).
Proof.
  apply (X1_marker_parsed (lit "You enter a cave." ++ nl) (lit "075")
           (lit " torch , ,rusty key") (lit "  ")).
  - discriminate.
  - reflexivity.
  - apply (first_START_first_marker (lit "You enter a cave." ++ nl)
             (lit "HEALTH:075,INVENTORY: torch , ,rusty key[/STATUS]  ")).
    apply first_at_dec. vm_compute. reflexivity.
  - apply first_at_dec. vm_compute. reflexivity.
Defined.

(** X2: only the first well-formed marker is consumed.  When the text
    after it holds another well-formed marker, that one is still in the
    narrative returned, and the state comes from the first. *)
Theorem X2_second_marker_stays pre d inv post g :
  d <> [] -> forallb is_digit d = true ->
  first_marker_at pre (HEALTH ++ d ++ INVENTORY ++ inv ++ FINISH ++ post) ->
  first_at FINISH inv post ->
  has_marker post ->
  has_marker
    (fst (parseAndUpdateState
            (pre ++ HEALTH ++ d ++ INVENTORY ++ inv ++ FINISH ++ post) g))
  /\ snd (parseAndUpdateState
            (pre ++ HEALTH ++ d ++ INVENTORY ++ inv ++ FINISH ++ post) g)
     = {| playerHealth := to_double (decimal d);
          playerInventory := inventory_items inv |}.
Proof.
  intros Hne Hd Hs Hf (a & d' & inv' & b & -> & Hne' & Hd').
  rewrite (parse_with_marker _ _ _ _ g Hne Hd Hs Hf). cbn [fst snd].
  split; [|reflexivity].
  exists (trimStart (pre ++ a)), d', inv', (trimEnd b).
  split; [|auto].
  replace (pre ++ a ++ HEALTH ++ d' ++ INVENTORY ++ inv' ++ FINISH ++ b)
    with ((pre ++ a) ++ (HEALTH ++ d' ++ INVENTORY ++ inv' ++ FINISH) ++ b)
    by (rewrite <- !app_assoc; reflexivity).
  rewrite marker_ends, trim_around by reflexivity.
  rewrite <- marker_ends, <- !app_assoc. reflexivity.
Qed.

Lemma X2_second_marker_stays_witness :
  has_marker
    (fst (parseAndUpdateState
            (lit "[STATUS]HEALTH:5,INVENTORY:a[/STATUS]"
               ++ lit " [STATUS]HEALTH:9,INVENTORY:b[/STATUS]")
            initial_game))
  /\ snd (parseAndUpdateState
            (lit "[STATUS]HEALTH:5,INVENTORY:a[/STATUS]"
               ++ lit " [STATUS]HEALTH:9,INVENTORY:b[/STATUS]")
            initial_game)
     = {| playerHealth := Fin 5; playerInventory := [lit "a"] |}.
Proof.
  apply (X2_second_marker_stays [] (lit "5") (lit "a")
           (lit " [STATUS]HEALTH:9,INVENTORY:b[/STATUS]") initial_game).
  - discriminate.
  - reflexivity.
  - apply (first_START_first_marker []
             (lit "HEALTH:5,INVENTORY:a[/STATUS]"
                ++ lit " [STATUS]HEALTH:9,INVENTORY:b[/STATUS]")).
    apply first_at_dec. vm_compute. reflexivity.
  - apply first_at_dec. vm_compute. reflexivity.
  - exists (lit " "), (lit "9"), (lit "b"), [].
    split; [reflexivity|]. split; [discriminate|reflexivity].
Defined.

(** X3: neither the narrative [parseAndUpdateState] returns nor the
    text the streaming loops show ever begins or ends with white
    space. *)
Theorem X3_shown_texts_trimmed s g :
  no_outer_white (fst (parseAndUpdateState s g))
  /\ no_outer_white (stream_display s).
Proof.
  split; [unfold parseAndUpdateState; cbn [fst] | unfold stream_display];
    apply trim_no_outer_white.
Qed.

(** X4: on a reply with one well-formed marker, behind the first start
    sentinel, and no other end sentinel, the last streaming display is
    already the final narrative: the final statements change no text. *)
Theorem X4_final_text_agrees pre d inv post g :
  d <> [] -> forallb is_digit d = true ->
  first_at START pre
    (lit "HEALTH:" ++ d ++ INVENTORY ++ inv ++ FINISH ++ post) ->
  first_at FINISH inv post ->
  last_at FINISH (lit "HEALTH:" ++ d ++ INVENTORY ++ inv) post ->
  fst (parseAndUpdateState
         (pre ++ HEALTH ++ d ++ INVENTORY ++ inv ++ FINISH ++ post) g)
  = stream_display
      (pre ++ HEALTH ++ d ++ INVENTORY ++ inv ++ FINISH ++ post).
Proof.
  intros Hne Hd Hs Hf Hl.
  rewrite (parse_with_marker _ _ _ _ g Hne Hd
             (first_START_first_marker _ _ Hs) Hf).
  cbn [fst]. rewrite HEALTH_START.
  replace (pre ++ (START ++ lit "HEALTH:") ++ d ++ INVENTORY ++ inv
             ++ FINISH ++ post)
    with (pre ++ START ++ (lit "HEALTH:" ++ d ++ INVENTORY ++ inv)
            ++ FINISH ++ post)
    by (rewrite <- !app_assoc; reflexivity).
  rewrite stream_display_span; [reflexivity| |exact Hl].
  rewrite <- !app_assoc. exact Hs.
Qed.

Lemma X4_final_text_agrees_witness :
  fst (parseAndUpdateState
         (lit "You rest. " ++ lit "[STATUS]HEALTH:80,INVENTORY:key[/STATUS]")
         initial_game)
  = stream_display
      (lit "You rest. " ++ lit "[STATUS]HEALTH:80,INVENTORY:key[/STATUS]").
Proof.
  apply (X4_final_text_agrees (lit "You rest. ") (lit "80") (lit "key") []).
  - discriminate.
  - reflexivity.
  - apply first_at_dec. vm_compute. reflexivity.
  - apply first_at_dec. vm_compute. reflexivity.
  - apply last_at_dec. vm_compute. reflexivity.
Defined.

(** X5: the two patterns differ on what follows the marker.  When a
    further end sentinel comes after the marker, the streaming display
    hides everything up to the last end sentinel, and the final
    narrative brings the text behind the marker back, that end sentinel
    included. *)
Theorem X5_text_behind_marker_returns pre d inv mid post g :
  d <> [] -> forallb is_digit d = true ->
  first_at START pre
    (lit "HEALTH:" ++ d ++ INVENTORY ++ inv ++ FINISH ++ mid ++ FINISH ++ post) ->
  first_at FINISH inv (mid ++ FINISH ++ post) ->
  last_at FINISH
    (lit "HEALTH:" ++ d ++ INVENTORY ++ inv ++ FINISH ++ mid) post ->
  stream_display
    (pre ++ HEALTH ++ d ++ INVENTORY ++ inv ++ FINISH ++ mid ++ FINISH ++ post)
  = trim (pre ++ post)
  /\ fst (parseAndUpdateState
            (pre ++ HEALTH ++ d ++ INVENTORY ++ inv ++ FINISH
               ++ mid ++ FINISH ++ post) g)
     = trim (pre ++ mid ++ FINISH ++ post).
Proof.
  intros Hne Hd Hs Hf Hl. split.
  - rewrite HEALTH_START.
    replace (pre ++ (START ++ lit "HEALTH:") ++ d ++ INVENTORY ++ inv
               ++ FINISH ++ mid ++ FINISH ++ post)
      with (pre ++ START
              ++ (lit "HEALTH:" ++ d ++ INVENTORY ++ inv ++ FINISH ++ mid)
              ++ FINISH ++ post)
      by (rewrite <- !app_assoc; reflexivity).
    rewrite stream_display_span; [reflexivity| |exact Hl].
    rewrite <- !app_assoc. exact Hs.
  - now rewrite (parse_with_marker _ _ _ _ g Hne Hd
                   (first_START_first_marker _ _ Hs) Hf).
Qed.

Lemma X5_text_behind_marker_returns_witness :
  stream_display
    (lit "Hi. " ++ lit "[STATUS]HEALTH:7,INVENTORY:[/STATUS]"
       ++ lit " Bye.[/STATUS]")
  = lit "Hi."
  /\ fst (parseAndUpdateState
            (lit "Hi. " ++ lit "[STATUS]HEALTH:7,INVENTORY:[/STATUS]"
               ++ lit " Bye.[/STATUS]") initial_game)
     = lit "Hi.  Bye.[/STATUS]".
Proof.
  apply (X5_text_behind_marker_returns (lit "Hi. ") (lit "7") []
           (lit " Bye.") [] initial_game).
  - discriminate.
  - reflexivity.
  - apply first_at_dec. vm_compute. reflexivity.
  - apply first_at_dec. vm_compute. reflexivity.
  - apply last_at_dec. vm_compute. reflexivity.
Defined.

(** X6: the text the streaming loops show never holds a start sentinel
    with an end sentinel somewhere behind it: a complete marker is
    never visible while the reply streams. *)
Theorem X6_no_span_while_streaming s : ~ has_span (stream_display s).
Proof.
  unfold stream_display. intros H. apply has_span_trim in H.
  now apply (replace_stream_no_span s).
Qed.

(* ================================================================== *)
(** ** The pages of a turn, exactly *)
(* ================================================================== *)

Lemma update_nth_twice n f g h l :
  (forall m, f (g m) = h m) ->
  update_nth n f (update_nth n g l) = update_nth n h l.
Proof.
  intros E. revert n; induction l as [|x l IH]; intros [|n]; simpl; auto.
  - now rewrite E.
  - now rewrite IH.
Qed.

Lemma update_nth_last f l m :
  update_nth (List.length l) f (l ++ [m]) = l ++ [f m].
Proof. induction l as [|x l IH]; simpl; [reflexivity|now rewrite IH]. Qed.

Lemma set_nodeValue_twice el t1 t2 p :
  set_nodeValue el t2 (set_nodeValue el t1 p) = set_nodeValue el t2 p.
Proof.
  unfold set_nodeValue. cbn [state gameOutput promptValue formDisabled].
  f_equal. now apply update_nth_twice.
Qed.

(** Every page of the loop is the page the loop started on, with the
    streaming display of the text received so far in the paragraph. *)
Lemma stream_loop_pages el rt chunks p rt' q :
  In (rt', q) (stream_loop el rt chunks p) ->
  q = set_nodeValue el (stream_display rt') p.
Proof.
  revert rt p; induction chunks as [|c cs IH]; intros rt p; simpl;
    [contradiction|].
  intros [H|H].
  - now inversion H.
  - apply IH in H. now rewrite set_nodeValue_twice in H.
Qed.

Lemma stream_loop_last_page el rt c cs p :
  last (stream_loop el rt (c :: cs) p) (rt, p)
  = (rt ++ List.concat (c :: cs),
     set_nodeValue el (stream_display (rt ++ List.concat (c :: cs))) p).
Proof.
  revert rt c p; induction cs as [|c' cs IH]; intros rt c p.
  - cbn. now rewrite app_nil_r.
  - cbn [stream_loop]. rewrite last_cons.
    change (last (stream_loop el (rt ++ c) (c' :: cs)
                    (set_nodeValue el (stream_display (rt ++ c)) p))
              (rt ++ c, set_nodeValue el (stream_display (rt ++ c)) p)
            = (rt ++ List.concat (c :: c' :: cs),
               set_nodeValue el
                 (stream_display (rt ++ List.concat (c :: c' :: cs))) p)).
    rewrite IH, set_nodeValue_twice. cbn [List.concat].
    now rewrite <- app_assoc.
Qed.

Lemma finalize_set_nodeValue el rt t p :
  finalize el rt (set_nodeValue el t p) = finalize el rt p.
Proof.
  unfold finalize. cbn [set_nodeValue state].
  destruct (parseAndUpdateState rt (state p)) as [fn g].
  unfold setFormDisabled, remove_cursor, set_nodeValue, set_state.
  cbn [state gameOutput promptValue formDisabled].
  f_equal. f_equal. now apply update_nth_twice.
Qed.

(** The final statements, run on a freshly created paragraph. *)
Lemma finalize_created rt p :
  finalize (List.length (gameOutput p)) rt (snd (createStreamingMessage p))
  = {| state := snd (parseAndUpdateState rt (state p));
       gameOutput :=
         gameOutput p
           ++ [Message gemini (fst (parseAndUpdateState rt (state p))) false];
       promptValue := promptValue p;
       formDisabled := false |}.
Proof.
  unfold finalize, createStreamingMessage. cbn [snd state].
  destruct (parseAndUpdateState rt (state p)) as [fn g].
  unfold setFormDisabled, remove_cursor, set_nodeValue, set_state.
  cbn [state gameOutput promptValue formDisabled fst snd].
  f_equal. now rewrite !update_nth_last.
Qed.

(** The pages of a turn whose stream ends. *)
Lemma receive_completed_exact chunks p :
  receive (Stream chunks EndOfStream) p
  = (p :: snd (createStreamingMessage p)
       :: map snd (stream_loop (List.length (gameOutput p)) [] chunks
                     (snd (createStreamingMessage p))))
    ++ [finalize (List.length (gameOutput p)) (List.concat chunks)
          (snd (createStreamingMessage p))].
Proof.
  unfold receive, createStreamingMessage. cbn [snd].
  destruct chunks as [|c cs].
  - reflexivity.
  - rewrite stream_loop_last_page. cbn [app].
    now rewrite finalize_set_nodeValue.
Qed.

(** The pages of a turn before the final statements: the entry page
    with at most one paragraph behind its transcript, an unfinished
    reply with its cursor. *)
Lemma receive_mid_pages chunks p x :
  In x (p :: snd (createStreamingMessage p)
          :: map snd (stream_loop (List.length (gameOutput p)) []
                        chunks (snd (createStreamingMessage p)))) ->
  formDisabled x = formDisabled p /\ state x = state p
  /\ promptValue x = promptValue p
  /\ (gameOutput x = gameOutput p
      \/ exists t, gameOutput x = gameOutput p ++ [Message gemini t true]).
Proof.
  intros [<-|[<-|Hx]].
  - auto.
  - cbn. repeat split; auto. right. now exists [].
  - apply in_map_iff in Hx as ([rt' x'] & <- & Hx).
    apply stream_loop_pages in Hx. subst x'.
    cbn [snd createStreamingMessage set_nodeValue state gameOutput
           promptValue formDisabled].
    repeat split; auto. right. exists (stream_display rt').
    now rewrite update_nth_last.
Qed.

Lemma receive_failed_exact chunks p :
  receive (Stream chunks StreamError) p
  = p :: snd (createStreamingMessage p)
      :: map snd (stream_loop (List.length (gameOutput p)) [] chunks
                    (snd (createStreamingMessage p))).
Proof.
  unfold receive, createStreamingMessage. cbn [snd].
  destruct (last _ _) as [rt p2]. now rewrite app_nil_r.
Qed.

(** Any page of a turn is such a page, or the page the final statements
    leave. *)
Lemma receive_page_cases r p q :
  In q (receive r p) ->
  (formDisabled q = formDisabled p /\ state q = state p
   /\ promptValue q = promptValue p
   /\ (gameOutput q = gameOutput p
       \/ exists t, gameOutput q = gameOutput p ++ [Message gemini t true]))
  \/ (exists chunks,
         r = Stream chunks EndOfStream
         /\ q = finalize (List.length (gameOutput p)) (List.concat chunks)
                  (snd (createStreamingMessage p))).
Proof.
  destruct r as [|chunks [|]].
  - intros [<-|[]]. left. auto.
  - rewrite receive_completed_exact. intros H.
    apply in_app_or in H as [H|[<-|[]]].
    + left. now apply (receive_mid_pages chunks).
    + right. now exists chunks.
  - rewrite receive_failed_exact. intros H. left.
    now apply (receive_mid_pages chunks).
Qed.

Lemma dropWhile_nil (p : char -> bool) s :
  dropWhile p s = [] <-> forallb p s = true.
Proof.
  induction s as [|c s IH]; simpl; [tauto|].
  destruct (p c); simpl; [exact IH|]. split; discriminate.
Qed.

Lemma trim_nil_iff s : trim s = [] <-> forallb is_white s = true.
Proof.
  unfold trim, trimEnd, trimStart. split.
  - intros H. apply (f_equal (@rev char)) in H.
    rewrite rev_involutive in H. cbn [rev] in H.
    apply dropWhile_nil in H.
    pose proof (dropWhile_head is_white s) as Hh.
    destruct (dropWhile is_white s) as [|c t] eqn:E.
    + now apply dropWhile_nil.
    + rewrite forallb_forall in H.
      rewrite (H c) in Hh; [discriminate|].
      apply -> in_rev. now left.
  - intros H. apply dropWhile_nil in H. now rewrite H.
Qed.

Lemma alternating_app next l l' :
  alternating next (l ++ l')
  = alternating next l
    && alternating (if Nat.even (List.length l) then next else other next) l'.
Proof.
  revert next; induction l as [|m l IH]; intros next; [reflexivity|].
  cbn [app alternating List.length]. rewrite IH, andb_assoc.
  rewrite Nat.even_succ, <- Nat.negb_even.
  destruct (Nat.even (List.length l)), next; reflexivity.
Qed.

(** A settled transcript stays settled when a prompt and its finished
    reply are put behind it. *)
Lemma settled_turn l u t :
  settled l ->
  settled ((l ++ [Message user u false]) ++ [Message gemini t false]).
Proof.
  intros (Ha & Ho & Hc). rewrite <- app_assoc. split; [|split].
  - rewrite alternating_app, Ha.
    rewrite <- Nat.negb_odd, Ho. reflexivity.
  - rewrite length_app. cbn [List.length app].
    rewrite Nat.add_comm. cbn [Nat.add]. now rewrite Nat.odd_succ_succ.
  - apply Forall_app. split; [exact Hc|]. repeat constructor.
Qed.

(* ================================================================== *)
(** ** Further properties of the handlers *)
(* ================================================================== *)

(** X7: the page a turn ends on when its stream ends depends on the
    chunks only through their concatenation.  It is the entry page with
    the prompt echoed (for the submit listener), one more paragraph
    holding the final narrative without cursor, the prompt field
    emptied, the form enabled, and the game state that
    [parseAndUpdateState] leaves for the whole reply. *)
Theorem X7_completed_turn_page chunks p d :
  last (startGame (Stream chunks EndOfStream) p) d
  = {| state := snd (parseAndUpdateState (List.concat chunks) (state p));
       gameOutput :=
         gameOutput p
           ++ [Message gemini
                 (fst (parseAndUpdateState (List.concat chunks) (state p)))
                 false];
       promptValue := promptValue p;
       formDisabled := false |}
  /\ (truthy (trim (promptValue p)) = true ->
      last (submit (Stream chunks EndOfStream) p) d
      = {| state := snd (parseAndUpdateState (List.concat chunks) (state p));
           gameOutput :=
             gameOutput p
               ++ [Message user (lit "> " ++ trim (promptValue p)) false;
                   Message gemini
                     (fst (parseAndUpdateState (List.concat chunks) (state p)))
                     false];
           promptValue := [];
           formDisabled := false |}).
Proof.
  split.
  - unfold startGame.
    now rewrite receive_completed_exact, last_last, finalize_created.
  - intros Ht. unfold submit. rewrite Ht.
    rewrite receive_completed_exact, last_last, finalize_created.
    cbn [state gameOutput promptValue formDisabled appendMessage
           setFormDisabled].
    now rewrite <- app_assoc.
Qed.

Lemma X7_completed_turn_page_witness :
  last (submit (Stream [lit "You see a k"; lit "ey."; nl;
                        lit "[STATUS]HEALTH:90,INVENTORY:key[/STATUS]"]
                  EndOfStream)
          (type_prompt (lit " look ") initial_page)) initial_page
  = {| state := {| playerHealth := Fin 90; playerInventory := [lit "key"] |};
       gameOutput := [Message user (lit "> look") false;
                      Message gemini (lit "You see a key.") false];
       promptValue := [];
       formDisabled := false |}.
Proof.
  apply (proj2 (X7_completed_turn_page
                  [lit "You see a k"; lit "ey."; nl;
                   lit "[STATUS]HEALTH:90,INVENTORY:key[/STATUS]"]
                  (type_prompt (lit " look ") initial_page) initial_page)).
  vm_compute. reflexivity.
Defined.

(** X8: a turn never touches the paragraphs that were there before.  On
    every page of [startGame] the transcript is the old one with at
    most one reply paragraph behind it; on every page of the submit
    listener it is the old one, the echoed prompt, and at most one
    reply paragraph, and the prompt field is empty. *)
Theorem X8_transcript_grows r p :
  (forall q, In q (startGame r p) ->
     exists tail,
       gameOutput q = gameOutput p ++ tail
       /\ (tail = [] \/ exists t c, tail = [Message gemini t c]))
  /\ (truthy (trim (promptValue p)) = true ->
      forall q, In q (submit r p) ->
        promptValue q = []
        /\ exists tail,
            gameOutput q
            = gameOutput p
                ++ Message user (lit "> " ++ trim (promptValue p)) false
                :: tail
            /\ (tail = [] \/ exists t c, tail = [Message gemini t c])).
Proof.
  split.
  - intros q Hq. unfold startGame in Hq.
    apply receive_page_cases in Hq
      as [(_ & _ & _ & [E|[t E]])|(chunks & _ & ->)].
    + exists []. rewrite app_nil_r. auto.
    + exists [Message gemini t true]. split; [exact E|]. right. eauto.
    + rewrite finalize_created. cbn [gameOutput setFormDisabled].
      eexists. split; [reflexivity|]. right. eauto.
  - intros Ht q Hq. unfold submit in Hq. rewrite Ht in Hq.
    apply receive_page_cases in Hq
      as [(_ & _ & Hv & [E|[t E]])|(chunks & _ & ->)].
    + split; [exact Hv|]. exists []. split; [exact E|]. now left.
    + split; [exact Hv|]. exists [Message gemini t true].
      split; [|right; eauto]. rewrite E.
      cbn [gameOutput appendMessage setFormDisabled].
      now rewrite <- app_assoc.
    + rewrite finalize_created.
      cbn [state gameOutput promptValue formDisabled appendMessage
             setFormDisabled].
      split; [reflexivity|]. eexists.
      split; [rewrite <- app_assoc; reflexivity|]. right. eauto.
Qed.

Lemma X8_transcript_grows_witness :
  promptValue
    (last (submit sample_reply
             (type_prompt (lit "look")
                (last (startGame sample_reply initial_page) initial_page)))
       initial_page) = []
  /\ exists tail,
      gameOutput
        (last (submit sample_reply
                 (type_prompt (lit "look")
                    (last (startGame sample_reply initial_page) initial_page)))
           initial_page)
      = [Message gemini (lit "You wake.") false]
          ++ Message user (lit "> look") false :: tail
      /\ (tail = [] \/ exists t c, tail = [Message gemini t c]).
Proof.
  apply (proj2 (X8_transcript_grows sample_reply
                  (type_prompt (lit "look")
                     (last (startGame sample_reply initial_page)
                        initial_page)))).
  - vm_compute. reflexivity.
  - vm_compute. do 4 right. left. reflexivity.
Defined.

(** X9: whenever a session shows the form enabled, the transcript is
    settled: replies and echoed prompts in turn, a reply first and a
    reply last, and no paragraph with a cursor left. *)
Theorem X9_settled_when_enabled p :
  reachable p -> formDisabled p = false -> settled (gameOutput p).
Proof.
  intros H. induction H as [r p H|v p H IH Hf|r p p' H IH Hf Hin].
  - intros Hq. unfold startGame in H.
    apply receive_page_cases in H
      as [(Hd & _)|(chunks & _ & ->)].
    + cbn in Hd. congruence.
    + rewrite finalize_created. cbn. repeat split; repeat constructor.
  - exact IH.
  - intros Hq. specialize (IH Hf). unfold submit in Hin.
    destruct (truthy (trim (promptValue p))).
    + apply receive_page_cases in Hin
        as [(Hd & _)|(chunks & _ & ->)].
      * cbn in Hd. congruence.
      * rewrite finalize_created.
        cbn [state gameOutput promptValue formDisabled appendMessage
               setFormDisabled].
        now apply settled_turn.
    + destruct Hin as [<-|[]]. exact IH.
Qed.

Lemma X9_settled_when_enabled_witness :
  settled
    (gameOutput
       (last (submit sample_reply
                (type_prompt (lit "look")
                   (last (startGame sample_reply initial_page) initial_page)))
          initial_page)).
Proof.
  apply X9_settled_when_enabled.
  - apply reach_submit
      with (r := sample_reply)
           (p := type_prompt (lit "look")
                   (last (startGame sample_reply initial_page) initial_page)).
    + apply reach_type.
      * apply reach_start with (r := sample_reply).
        vm_compute. do 4 right. left. reflexivity.
      * vm_compute. reflexivity.
    + vm_compute. reflexivity.
    + vm_compute. do 4 right. left. reflexivity.
  - vm_compute. reflexivity.
Defined.

(** X10: the form is disabled on every page of a turn but the last, and
    on the last page it is enabled again exactly when the stream of the
    reply ended; a rejected request or a stream error leaves it
    disabled. *)
Theorem X10_busy_gate r p mids fin :
  (startGame r p = mids ++ [fin] ->
   (forall q, In q mids -> formDisabled q = true)
   /\ (formDisabled fin = false
       <-> exists chunks, r = Stream chunks EndOfStream))
  /\ (truthy (trim (promptValue p)) = true ->
      submit r p = mids ++ [fin] ->
      (forall q, In q mids -> formDisabled q = true)
      /\ (formDisabled fin = false
          <-> exists chunks, r = Stream chunks EndOfStream)).
Proof.
  assert (G : forall p0, formDisabled p0 = true ->
              receive r p0 = mids ++ [fin] ->
              (forall q, In q mids -> formDisabled q = true)
              /\ (formDisabled fin = false
                  <-> exists chunks, r = Stream chunks EndOfStream)).
  { intros p0 Hd E. destruct r as [|chunks [|]].
    - change (receive Rejected p0) with ([] ++ [p0]) in E.
      apply app_inj_tail in E as [<- <-]. split; [intros q []|].
      rewrite Hd. split; [discriminate|]. intros [c Hc]. discriminate.
    - rewrite receive_completed_exact in E.
      apply app_inj_tail in E as [<- <-]. split.
      + intros q Hq. apply receive_mid_pages in Hq as (Hq & _). congruence.
      + rewrite finalize_created. cbn. split; eauto.
    - assert (Hall : forall q, In q (mids ++ [fin]) -> formDisabled q = true).
      { intros q Hq. rewrite <- E, receive_failed_exact in Hq.
        apply receive_mid_pages in Hq as (Hq & _). congruence. }
      split.
      + intros q Hq. apply Hall, in_or_app. now left.
      + rewrite (Hall fin) by (apply in_or_app; right; now left).
        split; [discriminate|]. intros [c Hc]. discriminate. }
  split.
  - unfold startGame. now apply G.
  - intros Ht. unfold submit. rewrite Ht. now apply G.
Qed.

Lemma X10_busy_gate_witness :
  (forall q,
      In q (removelast
              (submit sample_reply (type_prompt (lit "look") initial_page))) ->
      formDisabled q = true)
  /\ (formDisabled
        (last (submit sample_reply (type_prompt (lit "look") initial_page))
           initial_page) = false
      <-> exists chunks, sample_reply = Stream chunks EndOfStream).
Proof.
  apply (proj2 (X10_busy_gate sample_reply
                  (type_prompt (lit "look") initial_page)
                  (removelast
                     (submit sample_reply
                        (type_prompt (lit "look") initial_page)))
                  (last (submit sample_reply
                           (type_prompt (lit "look") initial_page))
                     initial_page))).
  - vm_compute. reflexivity.
  - vm_compute. reflexivity.
Defined.

(** X11: the submit listener does nothing at all, whatever the reply
    would be, exactly when the prompt field holds only white space (or
    nothing). *)
Theorem X11_blank_prompt_ignored r p :
  submit r p = [p] <-> forallb is_white (promptValue p) = true.
Proof.
  unfold submit. split.
  - destruct (truthy (trim (promptValue p))) eqn:Ht.
    + intros H. exfalso. destruct r as [|chunks ending].
      * cbn in H. inversion H as [E].
        apply (f_equal gameOutput) in E. cbn in E.
        apply (f_equal (@List.length message)) in E.
        rewrite length_app in E. simpl in E. lia.
      * unfold receive, createStreamingMessage in H.
        destruct (last _ _) as [rt p2]. discriminate.
    + intros _. apply trim_nil_iff.
      now destruct (trim (promptValue p)).
  - intros H. apply trim_nil_iff in H. now rewrite H.
Qed.

(* ================================================================== *)
(** ** The status panel *)
(* ================================================================== *)

Lemma split_no_sep_id sep a : ~ In sep a -> split sep a = [a].
Proof.
  induction a as [|c a IH]; intros H; simpl; [reflexivity|].
  destruct (N.eqb_spec c sep) as [->|_]; [exfalso; apply H; now left|].
  rewrite IH; [reflexivity|]. intros Ha. apply H. now right.
Qed.

Lemma split_app_sep sep a r :
  ~ In sep a -> split sep (a ++ sep :: r) = a :: split sep r.
Proof.
  induction a as [|c a IH]; intros H; simpl.
  - now rewrite N.eqb_refl.
  - destruct (N.eqb_spec c sep) as [->|_]; [exfalso; apply H; now left|].
    rewrite IH; [reflexivity|]. intros Ha. apply H. now right.
Qed.

Lemma dropWhile_app_all (p : char -> bool) a b :
  dropWhile p a = [] -> dropWhile p (a ++ b) = dropWhile p b.
Proof.
  induction a as [|c a IH]; [reflexivity|]. cbn [app dropWhile].
  destruct (p c); [exact IH|discriminate].
Qed.

Lemma dropWhile_app_some (p : char -> bool) a b :
  dropWhile p a <> [] -> dropWhile p (a ++ b) = dropWhile p a ++ b.
Proof.
  induction a as [|c a IH]; [now intros H|]. cbn [app dropWhile].
  destruct (p c); [exact IH|reflexivity].
Qed.

Lemma join_cons sep x y l :
  join sep (x :: y :: l) = x ++ sep ++ join sep (y :: l).
Proof. reflexivity. Qed.

Lemma split_app_nosep sep w r :
  ~ In sep w ->
  split sep (w ++ r) = (w ++ hd [] (split sep r)) :: tl (split sep r).
Proof.
  assert (Hne : forall s, split sep s <> []).
  { intros [|c s]; simpl; [discriminate|].
    destruct (c =? sep)%N; [discriminate|].
    destruct (split sep s); discriminate. }
  induction w as [|c w IH]; intros H.
  - cbn [app]. specialize (Hne r). now destruct (split sep r).
  - cbn [app split].
    destruct (N.eqb_spec c sep) as [->|_]; [exfalso; apply H; now left|].
    rewrite IH; [reflexivity|]. intros Hw. apply H. now right.
Qed.

Lemma white_no_comma w : forallb is_white w = true -> ~ In 44%N w.
Proof.
  intros H Hin. rewrite forallb_forall in H. specialize (H _ Hin).
  discriminate.
Qed.

(** Splitting a joined list on commas gives the items back, all but the
    first with the white space of the separator in front. *)
Lemma split_join w l :
  forallb is_white w = true ->
  Forall (fun it => ~ In 44%N it) l -> l <> [] ->
  split 44%N (join (44%N :: w) l) = hd [] l :: map (app w) (tl l).
Proof.
  intros Hw. induction l as [|x l IH]; intros F Hne; [congruence|].
  inversion F as [|? ? Hx Fl]; subst.
  destruct l as [|y l].
  - cbn. now apply split_no_sep_id.
  - rewrite join_cons. cbn [hd tl map].
    change ((44%N :: w) ++ join (44%N :: w) (y :: l))
      with (44%N :: w ++ join (44%N :: w) (y :: l)).
    rewrite split_app_sep by exact Hx. f_equal.
    rewrite split_app_nosep by now apply white_no_comma.
    rewrite IH by (auto; discriminate). reflexivity.
Qed.

Lemma trim_after_white w y : forallb is_white w = true -> trim (w ++ y) = trim y.
Proof.
  intros H. unfold trim, trimStart.
  rewrite dropWhile_app_all; [reflexivity|]. now apply dropWhile_nil.
Qed.

(** The items read from a list joined with a comma, or with a comma and
    white space, are the list. *)
Lemma items_of_join w l :
  forallb is_white w = true ->
  Forall (fun it => item_ok it /\ ~ In 44%N it) l ->
  inventory_items (join (44%N :: w) l) = l.
Proof.
  intros Hw F. destruct l as [|x l]; [reflexivity|].
  rewrite inventory_items_spec, split_join;
    [|exact Hw|now apply Forall_and_inv in F|discriminate].
  cbn [hd tl map filter]. inversion F as [|? ? [[Hx Tx] _] Fl]; subst.
  rewrite Tx. destruct x as [|c x]; [congruence|]. cbn [truthy]. f_equal.
  clear - Fl Hw. induction Fl as [|y l [[Hy Ty] _] Fl IH]; [reflexivity|].
  cbn [map filter]. rewrite trim_after_white, Ty by exact Hw.
  destruct y as [|c y]; [congruence|]. cbn [truthy]. now rewrite IH.
Qed.

(** On every page a session can reach, the inventory entries are
    non-empty, trimmed and free of commas. *)
Lemma reachable_items :
  forall p, reachable p ->
  Forall (fun it => item_ok it /\ ~ In 44%N it) (playerInventory (state p)).
Proof.
  assert (Hstep : forall r p q,
             Forall (fun it => item_ok it /\ ~ In 44%N it)
               (playerInventory (state p)) ->
             In q (receive r p) ->
             Forall (fun it => item_ok it /\ ~ In 44%N it)
               (playerInventory (state q))).
  { intros r p q Hp Hq. apply receive_In in Hq as [->|[rt ->]]; [exact Hp|].
    destruct (parse_state_cases rt (state p)) as [->|(d & inv & _ & _ & ->)];
      [exact Hp|].
    cbn [playerInventory]. apply Forall_forall. intros it Hit. split.
    - pose proof (inventory_items_ok inv) as F.
      rewrite Forall_forall in F. auto.
    - pose proof (inventory_items_no_comma inv) as F.
      rewrite Forall_forall in F. auto. }
  intros p H. induction H as [r p H|v p H IH Hf|r p p' H IH Hf Hin].
  - unfold startGame in H.
    apply (Hstep r (setFormDisabled true initial_page) p); [constructor|exact H].
  - exact IH.
  - unfold submit in Hin. destruct (truthy (trim (promptValue p))).
    + revert Hin. apply Hstep. exact IH.
    + destruct Hin as [<-|[]]. exact IH.
Qed.

(** X12: the inventory span reads ["Empty"] exactly when the inventory
    is empty or is the one item ["Empty"]: the two cannot be told apart
    on the page. *)
Theorem X12_empty_label toString g :
  inventoryList (updateStatusUI toString g) = lit "Empty"
  <-> playerInventory g = [] \/ playerInventory g = [lit "Empty"].
Proof.
  unfold updateStatusUI. cbn [inventoryList]. split.
  - destruct (playerInventory g) as [|x l]; [now left|].
    destruct l as [|y l].
    + change (join (lit ", ") [x]) with x. intros ->. now right.
    + rewrite join_cons. intros H. exfalso.
      assert (Hc : In 44%N (x ++ lit ", " ++ join (lit ", ") (y :: l))).
      { apply in_or_app. right. now left. }
      rewrite H in Hc. vm_compute in Hc. intuition discriminate.
  - intros [->| ->]; reflexivity.
Qed.

(** X13: on every page a session can reach with a non-empty inventory,
    the text of the inventory span, read back with the item rule of the
    marker (split on commas, trim, drop the empty ones), is the
    inventory: the span loses nothing of it. *)
Theorem X13_inventory_span_reads_back toString p :
  reachable p -> playerInventory (state p) <> [] ->
  inventory_items (inventoryList (updateStatusUI toString (state p)))
  = playerInventory (state p).
Proof.
  intros H Hne. unfold updateStatusUI. cbn [inventoryList].
  pose proof (reachable_items p H) as F.
  destruct (playerInventory (state p)) as [|x l] eqn:E; [congruence|].
  now apply (items_of_join [32%N]).
Qed.

Lemma X13_inventory_span_reads_back_witness :
  inventory_items
    (inventoryList
       (updateStatusUI toString_safe
          (state
             (last (startGame
                      (Stream [lit "[STATUS]HEALTH:9,INVENTORY:old key , rope"
                                 ++ lit "[/STATUS]"] EndOfStream)
                      initial_page) initial_page))))
  = [lit "old key"; lit "rope"].
Proof.
  apply (X13_inventory_span_reads_back toString_safe
           (last (startGame
                    (Stream [lit "[STATUS]HEALTH:9,INVENTORY:old key , rope"
                               ++ lit "[/STATUS]"] EndOfStream)
                    initial_page) initial_page)).
  - apply reach_start
      with (r := Stream [lit "[STATUS]HEALTH:9,INVENTORY:old key , rope"
                           ++ lit "[/STATUS]"] EndOfStream).
    vm_compute. do 3 right. left. reflexivity.
  - vm_compute. discriminate.
Defined.

Lemma decimal_app ds c :
  decimal (ds ++ [c]) = (10 * decimal ds + digit_value c)%Z.
Proof. unfold decimal. now rewrite fold_left_app. Qed.

Lemma digit_value_range c :
  is_digit c = true ->
  (0 <= digit_value c < 10)%Z /\ (48 + Z.to_N (digit_value c))%N = c.
Proof.
  intros H. apply digit_range in H. unfold digit_value. split; [lia|].
  rewrite N2Z.id. lia.
Qed.

Lemma digits_fuel_S f z acc :
  digits_fuel (S f) z acc
  = if (z <? 10)%Z then (48 + Z.to_N (z mod 10))%N :: acc
    else digits_fuel f (z / 10) ((48 + Z.to_N (z mod 10))%N :: acc).
Proof. reflexivity. Qed.

Lemma digits_fuel_acc f z acc :
  digits_fuel f z acc = digits_fuel f z [] ++ acc.
Proof.
  revert z acc; induction f as [|f IH]; intros z acc; [reflexivity|].
  rewrite !digits_fuel_S. destruct (z <? 10)%Z; [reflexivity|].
  rewrite IH, (IH _ [_]), <- app_assoc. reflexivity.
Qed.

(** With enough fuel the numeral does not depend on the fuel. *)
Lemma digits_fuel_enough f1 :
  forall f2 z,
    (0 <= z < 2 ^ Z.of_nat (S f1))%Z -> (z < 2 ^ Z.of_nat (S f2))%Z ->
    digits_fuel (S f1) z [] = digits_fuel (S f2) z [].
Proof.
  induction f1 as [|f1 IH]; intros f2 z H1 H2;
    rewrite (digits_fuel_S _ z), (digits_fuel_S f2 z).
  - change (2 ^ Z.of_nat 1)%Z with 2%Z in H1.
    assert (E : (z <? 10)%Z = true) by (apply Z.ltb_lt; lia).
    now rewrite E.
  - destruct (z <? 10)%Z eqn:E; [reflexivity|]. apply Z.ltb_ge in E.
    destruct f2 as [|f2].
    { change (2 ^ Z.of_nat 1)%Z with 2%Z in H2. lia. }
    rewrite (digits_fuel_acc (S f1)), (digits_fuel_acc (S f2)). f_equal.
    rewrite Nat2Z.inj_succ, Z.pow_succ_r in H1, H2 by lia.
    assert (P1 : (0 < 2 ^ Z.of_nat (S f1))%Z) by (apply Z.pow_pos_nonneg; lia).
    assert (P2 : (0 < 2 ^ Z.of_nat (S f2))%Z) by (apply Z.pow_pos_nonneg; lia).
    apply IH.
    + split; [apply Z.div_pos; lia | apply Z.div_lt_upper_bound; lia].
    + apply Z.div_lt_upper_bound; lia.
Qed.

Lemma log2_fuel z :
  (0 <= z)%Z -> (z < 2 ^ Z.of_nat (S (Z.to_nat (Z.log2 z))))%Z.
Proof.
  intros H. rewrite Nat2Z.inj_succ, Z2Nat.id by apply Z.log2_nonneg.
  destruct (Z.eq_dec z 0) as [->|Hz]; [reflexivity|].
  apply Z.log2_spec. lia.
Qed.

Lemma decimal_digits_one v :
  (0 <= v < 10)%Z -> decimal_digits v = [(48 + Z.to_N v)%N].
Proof.
  intros H. unfold decimal_digits. rewrite digits_fuel_S.
  rewrite Z.mod_small by lia.
  assert (E : (v <? 10)%Z = true) by (apply Z.ltb_lt; lia).
  now rewrite E.
Qed.

Lemma decimal_digits_step n v :
  (0 < n)%Z -> (0 <= v < 10)%Z ->
  decimal_digits (10 * n + v) = decimal_digits n ++ [(48 + Z.to_N v)%N].
Proof.
  intros Hn Hv. unfold decimal_digits at 1. rewrite digits_fuel_S.
  assert (E : (10 * n + v <? 10)%Z = false) by (apply Z.ltb_ge; lia).
  rewrite E.
  replace ((10 * n + v) mod 10)%Z with v
    by (rewrite Z.add_comm, Z.mul_comm, Z.mod_add, Z.mod_small; lia).
  replace ((10 * n + v) / 10)%Z with n
    by (rewrite Z.add_comm, Z.mul_comm, Z.div_add, Z.div_small; lia).
  pose proof (log2_fuel (10 * n + v) ltac:(lia)) as L.
  destruct (Z.to_nat (Z.log2 (10 * n + v))) as [|F] eqn:EF.
  { change (2 ^ Z.of_nat 1)%Z with 2%Z in L. lia. }
  rewrite digits_fuel_acc. f_equal. unfold decimal_digits.
  rewrite Nat2Z.inj_succ, Z.pow_succ_r in L by lia.
  assert (P : (0 < 2 ^ Z.of_nat F)%Z) by (apply Z.pow_pos_nonneg; lia).
  destruct F as [|F].
  { change (2 ^ Z.of_nat 0)%Z with 1%Z in L. lia. }
  apply digits_fuel_enough; [lia|]. apply log2_fuel. lia.
Qed.

Lemma decimal_zeros d :
  dropWhile (fun c => (c =? 48)%N) d = [] -> decimal d = 0%Z.
Proof.
  intros H. apply dropWhile_nil in H. unfold decimal.
  induction d as [|c d IH]; [reflexivity|].
  cbn [forallb] in H. apply andb_true_iff in H as [Hc H].
  apply N.eqb_eq in Hc. subst c. cbn [fold_left]. now apply IH.
Qed.

Lemma decimal_fold_ge ds :
  forall acc, (0 <= acc)%Z ->
    (acc <= fold_left (fun a c => (10 * a + digit_value c)%Z) ds acc)%Z.
Proof.
  induction ds as [|c ds IH]; intros acc Ha; cbn [fold_left]; [lia|].
  pose proof (N2Z.is_nonneg (c - 48)).
  assert (H1 : (0 <= 10 * acc + digit_value c)%Z) by (unfold digit_value; lia).
  specialize (IH _ H1). unfold digit_value in *. lia.
Qed.

Lemma decimal_positive d :
  forallb is_digit d = true ->
  dropWhile (fun c => (c =? 48)%N) d <> [] -> (0 < decimal d)%Z.
Proof.
  unfold decimal. induction d as [|c d IH]; intros Hd Hne; [now cbn in Hne|].
  cbn [forallb] in Hd. apply andb_true_iff in Hd as [Hc Hd].
  cbn [dropWhile] in Hne. cbn [fold_left].
  destruct (N.eqb_spec c 48) as [->|Hc48].
  - now apply IH.
  - apply digit_range in Hc.
    assert (H1 : (1 <= 10 * 0 + digit_value c)%Z) by (unfold digit_value; lia).
    pose proof (decimal_fold_ge d (10 * 0 + digit_value c) ltac:(lia)). lia.
Qed.

(** Printing the value of a run of digits gives the run without its
    leading zeros. *)
Lemma digits_of_decimal d :
  d <> [] -> forallb is_digit d = true ->
  decimal_digits (decimal d) = strip_zeros d.
Proof.
  induction d as [|c d IH] using rev_ind; [congruence|].
  intros _ Hd. rewrite forallb_app in Hd.
  apply andb_true_iff in Hd as [Hd Hc]. cbn in Hc.
  rewrite andb_true_r in Hc.
  destruct (digit_value_range c Hc) as [Hv Ec].
  rewrite decimal_app. unfold strip_zeros.
  destruct (dropWhile (fun c0 => (c0 =? 48)%N) d) as [|x xs] eqn:Ez.
  - rewrite (decimal_zeros d Ez), dropWhile_app_all by exact Ez.
    rewrite Z.mul_0_r, Z.add_0_l, decimal_digits_one, Ec by exact Hv.
    cbn [dropWhile]. now destruct (N.eqb_spec c 48) as [->|].
  - assert (Hne : d <> []) by (intros ->; discriminate).
    assert (Hpos : (0 < decimal d)%Z)
      by (apply decimal_positive; [exact Hd|rewrite Ez; discriminate]).
    rewrite decimal_digits_step, Ec by (exact Hpos || exact Hv).
    rewrite (IH Hne Hd). unfold strip_zeros. rewrite Ez.
    rewrite dropWhile_app_some by (rewrite Ez; discriminate).
    now rewrite Ez.
Qed.

(** X14: when [toString] prints the safe integers as decimal numerals,
    a marker whose health digits [d] denote a value below 2^53 commits
    exactly that value, and the health span then shows [d] without its
    leading zeros. *)
Theorem X14_health_span toString pre d inv post g :
  prints_safe_integers toString ->
  d <> [] -> forallb is_digit d = true -> (decimal d < 2 ^ 53)%Z ->
  first_marker_at pre (HEALTH ++ d ++ INVENTORY ++ inv ++ FINISH ++ post) ->
  first_at FINISH inv post ->
  playerHealth
    (snd (parseAndUpdateState
            (pre ++ HEALTH ++ d ++ INVENTORY ++ inv ++ FINISH ++ post) g))
  = Fin (decimal d)
  /\ healthValue
       (updateStatusUI toString
          (snd (parseAndUpdateState
                  (pre ++ HEALTH ++ d ++ INVENTORY ++ inv ++ FINISH ++ post)
                  g)))
     = strip_zeros d.
Proof.
  intros Hts Hne Hd Hsafe Hs Hf.
  rewrite (parse_with_marker _ _ _ _ g Hne Hd Hs Hf).
  cbn [snd playerHealth updateStatusUI healthValue].
  assert (E : to_double (decimal d) = Fin (decimal d)).
  { unfold to_double.
    assert (L : (decimal d <? 2 ^ 53)%Z = true) by now apply Z.ltb_lt.
    now rewrite L. }
  rewrite E. split; [reflexivity|].
  rewrite Hts by (split; [apply decimal_nonneg|exact Hsafe]).
  now apply digits_of_decimal.
Qed.

Lemma X14_health_span_witness :
  playerHealth
    (snd (parseAndUpdateState
            (lit "You limp on. "
               ++ lit "[STATUS]HEALTH:0042,INVENTORY:[/STATUS]") initial_game))
  = Fin 42
  /\ healthValue
       (updateStatusUI toString_safe
          (snd (parseAndUpdateState
                  (lit "You limp on. "
                     ++ lit "[STATUS]HEALTH:0042,INVENTORY:[/STATUS]")
                  initial_game)))
     = lit "42".
Proof.
  apply (X14_health_span toString_safe (lit "You limp on. ") (lit "0042")
           [] [] initial_game).
  - intros z _. reflexivity.
  - discriminate.
  - reflexivity.
  - vm_compute. reflexivity.
  - apply (first_START_first_marker (lit "You limp on. ")
             (lit "HEALTH:0042,INVENTORY:[/STATUS]")).
    apply first_at_dec. vm_compute. reflexivity.
  - apply first_at_dec. vm_compute. reflexivity.
Defined.

(** The page a turn is left on when its stream throws. *)
Lemma receive_failed_last_page chunks p d :
  last (receive (Stream chunks StreamError) p) d
  = {| state := state p;
       gameOutput :=
         gameOutput p
           ++ [Message gemini (stream_display (List.concat chunks)) true];
       promptValue := promptValue p;
       formDisabled := formDisabled p |}.
Proof.
  rewrite receive_failed_exact, last_cons.
  change (snd (createStreamingMessage p))
    with (snd (@pair jsstring page [] (snd (createStreamingMessage p)))) at 1.
  rewrite last_map_cons.
  destruct chunks as [|c cs].
  - reflexivity.
  - rewrite stream_loop_last_page.
    cbn [snd app createStreamingMessage set_nodeValue state gameOutput
           promptValue formDisabled].
    unfold set_nodeValue. cbn [state gameOutput promptValue formDisabled].
    now rewrite update_nth_last.
Qed.

(** X15: the page the submit listener is left on when the reply fails.
    After a stream error it is the entry page with the prompt echoed
    and the paragraph of the reply showing the streaming display of
    what was received, its cursor still attached; after a rejected
    request there is no paragraph for the reply.  Either way the prompt
    field is empty, the form disabled and the game state untouched. *)
Theorem X15_failed_turn_page chunks p d :
  truthy (trim (promptValue p)) = true ->
  last (submit (Stream chunks StreamError) p) d
  = {| state := state p;
       gameOutput :=
         gameOutput p
           ++ [Message user (lit "> " ++ trim (promptValue p)) false;
               Message gemini (stream_display (List.concat chunks)) true];
       promptValue := [];
       formDisabled := true |}
  /\ last (submit Rejected p) d
     = {| state := state p;
          gameOutput :=
            gameOutput p
              ++ [Message user (lit "> " ++ trim (promptValue p)) false];
          promptValue := [];
          formDisabled := true |}.
Proof.
  intros Ht. unfold submit. rewrite Ht. split.
  - rewrite receive_failed_last_page.
    cbn [state gameOutput promptValue formDisabled appendMessage
           setFormDisabled].
    now rewrite <- app_assoc.
  - reflexivity.
Qed.

Lemma X15_failed_turn_page_witness :
  last (submit (Stream [lit "A shadow"; lit " looms."; nl ++ lit "[STAT"]
                  StreamError)
          (type_prompt (lit "wait") initial_page)) initial_page
  = {| state := initial_game;
       gameOutput := [Message user (lit "> wait") false;
                      Message gemini (lit "A shadow looms." ++ nl ++ lit "[STAT")
                        true];
       promptValue := [];
       formDisabled := true |}
  /\ last (submit Rejected (type_prompt (lit "wait") initial_page)) initial_page
     = {| state := initial_game;
          gameOutput := [Message user (lit "> wait") false];
          promptValue := [];
          formDisabled := true |}.
Proof.
  apply (X15_failed_turn_page [lit "A shadow"; lit " looms."; nl ++ lit "[STAT"]
           (type_prompt (lit "wait") initial_page) initial_page).
  vm_compute. reflexivity.
Defined.

(** X16: the inventory of the wire format reads back.  When the
    inventory field of the first well-formed marker is a list of items
    joined with commas (white space after a comma allowed), each item
    non-empty, trimmed and free of commas, the committed inventory is
    that list, in its order and with its duplicates. *)
Theorem X16_inventory_wire_round_trip pre d w items post g :
  forallb is_white w = true ->
  Forall (fun it => item_ok it /\ ~ In 44%N it) items ->
  d <> [] -> forallb is_digit d = true ->
  first_marker_at pre
    (HEALTH ++ d ++ INVENTORY ++ join (44%N :: w) items ++ FINISH ++ post) ->
  first_at FINISH (join (44%N :: w) items) post ->
  playerInventory
    (snd (parseAndUpdateState
            (pre ++ HEALTH ++ d ++ INVENTORY ++ join (44%N :: w) items
               ++ FINISH ++ post) g))
  = items.
Proof.
  intros Hw F Hne Hd Hs Hf.
  rewrite (parse_with_marker _ _ _ _ g Hne Hd Hs Hf).
  cbn [snd playerInventory]. now apply items_of_join.
Qed.

Lemma X16_inventory_wire_round_trip_witness :
  playerInventory
    (snd (parseAndUpdateState
            (lit "You loot the chest. "
               ++ lit "[STATUS]HEALTH:64,INVENTORY:torch,rusty key,torch"
               ++ lit "[/STATUS]") initial_game))
  = [lit "torch"; lit "rusty key"; lit "torch"].
Proof.
  apply (X16_inventory_wire_round_trip (lit "You loot the chest. ") (lit "64")
           [] [lit "torch"; lit "rusty key"; lit "torch"] [] initial_game).
  - reflexivity.
  - repeat constructor; try discriminate; vm_compute; intuition discriminate.
  - discriminate.
  - reflexivity.
  - apply (first_START_first_marker (lit "You loot the chest. ")
             (lit "HEALTH:64,INVENTORY:torch,rusty key,torch[/STATUS]")).
    apply first_at_dec. vm_compute. reflexivity.
  - apply first_at_dec. vm_compute. reflexivity.
Defined.

(* ================================================================== *)
(** ** The inventory field and the health field, read piece by piece *)
(* ================================================================== *)

Lemma forallb_rev (p : char -> bool) l : forallb p (rev l) = forallb p l.
Proof.
  induction l as [|c l IH]; [reflexivity|].
  cbn [rev forallb]. rewrite forallb_app, IH. cbn [forallb].
  rewrite andb_true_r. apply andb_comm.
Qed.

(** [trim] takes white space, and nothing else, from the two ends. *)
Lemma trim_core r : piece_core r (trim r).
Proof.
  exists (takeWhile is_white r),
         (rev (takeWhile is_white (rev (dropWhile is_white r)))).
  split; [|split; [|split]].
  - unfold trim, trimEnd, trimStart.
    rewrite <- rev_app_distr, take_drop_while, rev_involutive.
    symmetry. apply take_drop_while.
  - apply takeWhile_all.
  - rewrite forallb_rev. apply takeWhile_all.
  - apply trim_no_outer_white.
Qed.

Lemma map_app_nil (l : list jsstring) : map (app []) l = l.
Proof.
  induction l as [|x l IH]; [reflexivity|].
  change (map (app []) (x :: l)) with (x :: map (app []) l).
  now rewrite IH.
Qed.

(** Splitting on commas undoes joining with commas. *)
Lemma split_join_comma pieces :
  pieces <> [] -> Forall (fun r => ~ In 44%N r) pieces ->
  split 44%N (join [44%N] pieces) = pieces.
Proof.
  intros Hne F.
  transitivity (hd [] pieces :: map (app []) (tl pieces));
    [exact (split_join [] pieces eq_refl F Hne)|].
  rewrite map_app_nil. destruct pieces; [congruence|reflexivity].
Qed.

(** C6: when the first well-formed marker of the text has the inventory
    field [inv] (the text between [",INVENTORY:"] and the first end
    sentinel after it), the committed inventory is [inv] split on
    commas, each item trimmed, the empty ones dropped; an empty field
    commits the empty inventory; every committed item is non-empty, has
    no white space at either end and no comma.  Read piece by piece:
    whenever [inv] is a list of comma-free pieces joined with commas,
    the committed inventory is, in the same order, what is left of each
    piece once the white space at its two ends is taken away, the
    pieces of which nothing is left being dropped. *)
Theorem C6_inventory_field pre d inv post g :
  d <> [] -> forallb is_digit d = true ->
  first_marker_at pre (HEALTH ++ d ++ INVENTORY ++ inv ++ FINISH ++ post) ->
  first_at FINISH inv post ->
  playerInventory
    (snd (parseAndUpdateState
            (pre ++ HEALTH ++ d ++ INVENTORY ++ inv ++ FINISH ++ post) g))
  = filter truthy (map trim (split 44%N inv))
  /\ (inv = [] ->
      playerInventory
        (snd (parseAndUpdateState
                (pre ++ HEALTH ++ d ++ INVENTORY ++ inv ++ FINISH ++ post) g))
      = [])
  /\ Forall (fun it => item_ok it /\ no_outer_white it /\ ~ In 44%N it)
       (playerInventory
          (snd (parseAndUpdateState
                  (pre ++ HEALTH ++ d ++ INVENTORY ++ inv ++ FINISH ++ post)
                  g)))
  /\ (forall pieces,
        inv = join [44%N] pieces -> pieces <> [] ->
        Forall (fun r => ~ In 44%N r) pieces ->
        exists cores,
          Forall2 piece_core pieces cores
          /\ playerInventory
               (snd (parseAndUpdateState
                       (pre ++ HEALTH ++ d ++ INVENTORY ++ inv ++ FINISH
                          ++ post) g))
             = filter (fun c => negb (Nat.eqb (List.length c) 0)) cores).
Proof.
  intros Hne Hd Hs Hf.
  rewrite (parse_with_marker _ _ _ _ g Hne Hd Hs Hf). cbn [snd playerInventory].
  split; [apply inventory_items_spec|]. split; [now intros ->|]. split.
  - apply Forall_forall. intros it Hit.
    pose proof (inventory_items_ok inv) as F1.
    pose proof (inventory_items_no_comma inv) as F2.
    rewrite Forall_forall in F1, F2. split; [auto|]. split; [|auto].
    rewrite inventory_items_spec in Hit.
    apply filter_In in Hit as [Hit _].
    apply in_map_iff in Hit as (x & <- & _). apply trim_no_outer_white.
  - intros pieces -> Hp F. exists (map trim pieces). split.
    + clear. induction pieces as [|r pieces IH]; constructor;
        [apply trim_core|exact IH].
    + rewrite inventory_items_spec, (split_join_comma pieces Hp F).
      apply filter_ext. now intros [|c l].
Qed.

Lemma C6_inventory_field_witness :
  playerInventory
    (snd (parseAndUpdateState
            (lit "The room is bare." ++ nl
               ++ lit "[STATUS]HEALTH:100,INVENTORY: torch , ,rusty key"
               ++ lit "[/STATUS]")
            {| playerHealth := Fin 60; playerInventory := [lit "rope"] |}))
  = [lit "torch"; lit "rusty key"]
  /\ (exists cores,
         Forall2 piece_core [lit " torch "; lit " "; lit "rusty key"] cores
         /\ playerInventory
              (snd (parseAndUpdateState
                      (lit "The room is bare." ++ nl
                         ++ lit "[STATUS]HEALTH:100,INVENTORY: torch , ,"
                         ++ lit "rusty key[/STATUS]")
                      {| playerHealth := Fin 60;
                         playerInventory := [lit "rope"] |}))
            = filter (fun c => negb (Nat.eqb (List.length c) 0)) cores)
  /\ playerInventory
       (snd (parseAndUpdateState
               (lit "[STATUS]HEALTH:100,INVENTORY:[/STATUS]")
               {| playerHealth := Fin 60; playerInventory := [lit "rope"] |}))
     = [].
Proof.
  destruct (C6_inventory_field (lit "The room is bare." ++ nl) (lit "100")
              (lit " torch , ,rusty key") []
              {| playerHealth := Fin 60; playerInventory := [lit "rope"] |})
    as (H1 & _ & _ & H4).
  - discriminate.
  - reflexivity.
  - apply (first_START_first_marker (lit "The room is bare." ++ nl)
             (lit "HEALTH:100,INVENTORY: torch , ,rusty key[/STATUS]")).
    apply first_at_dec. vm_compute. reflexivity.
  - apply first_at_dec. vm_compute. reflexivity.
  - split; [exact H1|]. split.
    + apply (H4 [lit " torch "; lit " "; lit "rusty key"]).
      * reflexivity.
      * discriminate.
      * repeat constructor; vm_compute; intuition discriminate.
    + destruct (C6_inventory_field [] (lit "100") [] []
                  {| playerHealth := Fin 60;
                     playerInventory := [lit "rope"] |})
        as (_ & H2 & _).
      * discriminate.
      * reflexivity.
      * apply (first_START_first_marker []
                 (lit "HEALTH:100,INVENTORY:[/STATUS]")).
        apply first_at_dec. vm_compute. reflexivity.
      * apply first_at_dec. vm_compute. reflexivity.
      * exact (H2 eq_refl).
Defined.

(** Statement by statement, [parseAndUpdateState] always returns. *)
Lemma parseAndUpdateState_call_returns s g :
  parseAndUpdateState_call s g = Normal (parseAndUpdateState s g).
Proof.
  unfold parseAndUpdateState_call, parseAndUpdateState. cbn [and_then].
  now destruct (regex_match statusRegex s) as [[[i rest] caps]|].
Qed.

(** A marker whose health field, the text between ["HEALTH:"] and the
    first [",INVENTORY:"], is not a run of one or more digits is not a
    well-formed marker, when its start sentinel is the only one of the
    text. *)
Lemma malformed_health_no_marker pre h inv post :
  first_at START pre (lit "HEALTH:" ++ h ++ INVENTORY ++ inv ++ FINISH ++ post) ->
  last_at START pre (lit "HEALTH:" ++ h ++ INVENTORY ++ inv ++ FINISH ++ post) ->
  first_at INVENTORY h (inv ++ FINISH ++ post) ->
  (h = [] \/ forallb is_digit h = false) ->
  ~ has_marker
      (pre ++ START ++ lit "HEALTH:" ++ h ++ INVENTORY ++ inv ++ FINISH ++ post).
Proof.
  intros Hf Hl Hfield Hbad (pre' & d & inv' & post' & E & Hne & Hd).
  rewrite HEALTH_START, <- app_assoc in E.
  pose proof (Hf _ _ E) as L1. pose proof (Hl _ _ E) as L2.
  apply app_same_length in E as [_ E]; [|lia].
  apply app_inv_head in E. apply app_inv_head in E.
  pose proof (Hfield _ _ E) as Lh.
  destruct (app_split_le _ _ _ _ E Lh) as (u & -> & Eu).
  rewrite forallb_app in Hd. apply andb_true_iff in Hd as [Hh Hu].
  destruct u as [|c u].
  - rewrite app_nil_r in Hne. destruct Hbad as [->|Hb]; congruence.
  - change INVENTORY with (44%N :: lit "INVENTORY:") in Eu at 1.
    cbn [app] in Eu. inversion Eu; subst c.
    cbn [forallb] in Hu. discriminate.
Qed.

(** C8, amended: in a text whose only start sentinel opens a marker
    ["[STATUS]HEALTH:" h ",INVENTORY:" inv "[/STATUS]"], when the health
    field [h] (the text between ["HEALTH:"] and the first
    [",INVENTORY:"]) is not a run of one or more digits, the final
    pattern does not match: the call returns, nothing is thrown, health
    and inventory both keep their previous values, and the marker stays
    in the narrative returned. *)
Theorem C8_malformed_health pre h inv post g :
  first_at START pre
    (lit "HEALTH:" ++ h ++ INVENTORY ++ inv ++ FINISH ++ post) ->
  last_at START pre
    (lit "HEALTH:" ++ h ++ INVENTORY ++ inv ++ FINISH ++ post) ->
  first_at INVENTORY h (inv ++ FINISH ++ post) ->
  (h = [] \/ forallb is_digit h = false) ->
  parseAndUpdateState_call
    (pre ++ START ++ lit "HEALTH:" ++ h ++ INVENTORY ++ inv ++ FINISH ++ post)
    g
  = Normal
      (trimStart pre ++ START
         ++ trimEnd (lit "HEALTH:" ++ h ++ INVENTORY ++ inv ++ FINISH ++ post),
       g)
  /\ parseAndUpdateState
       (pre ++ START ++ lit "HEALTH:" ++ h ++ INVENTORY ++ inv ++ FINISH
          ++ post) g
     = (trimStart pre ++ START
          ++ trimEnd (lit "HEALTH:" ++ h ++ INVENTORY ++ inv ++ FINISH ++ post),
        g).
Proof.
  intros Hf Hl Hfield Hb.
  assert (E : parseAndUpdateState
                (pre ++ START ++ lit "HEALTH:" ++ h ++ INVENTORY ++ inv
                   ++ FINISH ++ post) g
              = (trimStart pre ++ START
                   ++ trimEnd (lit "HEALTH:" ++ h ++ INVENTORY ++ inv
                                 ++ FINISH ++ post),
                 g)).
  { rewrite <- trim_around_START. apply parse_without_marker.
    now apply malformed_health_no_marker. }
  split; [|exact E]. now rewrite parseAndUpdateState_call_returns, E.
Qed.

Lemma C8_malformed_health_witness :
  parseAndUpdateState_call
    (lit "You fall. " ++ lit "[STATUS]HEALTH:1,000,INVENTORY:torch[/STATUS]")
    {| playerHealth := Fin 60; playerInventory := [lit "rope"] |}
  = Normal
      (lit "You fall. [STATUS]HEALTH:1,000,INVENTORY:torch[/STATUS]",
       {| playerHealth := Fin 60; playerInventory := [lit "rope"] |})
  /\ parseAndUpdateState
       (lit "You fall. " ++ lit "[STATUS]HEALTH:1,000,INVENTORY:torch[/STATUS]")
       {| playerHealth := Fin 60; playerInventory := [lit "rope"] |}
     = (lit "You fall. [STATUS]HEALTH:1,000,INVENTORY:torch[/STATUS]",
        {| playerHealth := Fin 60; playerInventory := [lit "rope"] |}).
Proof.
  apply (C8_malformed_health (lit "You fall. ") (lit "1,000") (lit "torch") []).
  - apply first_at_dec. vm_compute. reflexivity.
  - apply last_at_dec. vm_compute. reflexivity.
  - apply first_at_dec. vm_compute. reflexivity.
  - right. reflexivity.
Defined.
